(** * Image fetch scheduler of the ECMWF timelapse viewer

    A shallow embedding of the core of [tiempo_timelapse.py]: the validator
    store ([MetadataCache]), the content cache ([ForecastCache]), the fetch
    scheduler ([ImageFetcher]) and the priority planner
    ([MainWindow._build_priority_offsets]), with the properties the
    specification states about them. *)

From Stdlib Require Import ZArith Lia.
From Stdlib.Strings Require Import Byte.
From stdpp Require Import gmap strings list pretty.

Set Warnings "-register-all".
Open Scope Z_scope.

(** ** Python values and exceptions *)

(** The exceptions the modelled code can raise. *)
Inductive PyError : Type :=
  | AttributeError
  | TypeError
  | KeyError
  | IndexError
  | ZeroDivisionError.

(** A call either returns a value or raises. *)
Inductive result (A : Type) : Type :=
  | Ok (a : A)
  | Raise (e : PyError).
Arguments Ok {A} a.
Arguments Raise {A} e.

#[global] Instance result_ret : MRet result := λ A a, Ok a.
#[global] Instance result_bind : MBind result := λ A B k m,
  match m with
  | Ok a => k a
  | Raise e => Raise e
  end.

#[global] Instance result_fmap : FMap result := λ A B f m,
  match m with
  | Ok a => Ok (f a)
  | Raise e => Raise e
  end.

Definition returns {A : Type} (m : result A) : bool :=
  match m with
  | Ok _ => true
  | Raise _ => false
  end.

(** What [json.loads] returns: the store keeps it as it comes, so a record
    can be any of these.  Numbers are integers here; the operations below
    treat every number alike. *)
Inductive json : Type :=
  | JNull
  | JBool (b : bool)
  | JNum (n : Z)
  | JStr (s : string)
  | JList (l : list json)
  | JDict (d : gmap string json).

(** Truth value of an optional string, as in [if etag:]. *)
Definition truthy (s : option string) : bool :=
  match s with
  | Some s => negb (String.eqb s EmptyString)
  | None => false
  end.

(** [k in s] for two strings. *)
Fixpoint str_contains (k s : string) : bool :=
  String.prefix k s ||
  match s with
  | EmptyString => false
  | String _ s' => str_contains k s'
  end.

(** [data.get(key, default)]. *)
Definition py_get (data : json) (key : string) (dflt : json) : result json :=
  match data with
  | JDict d => Ok (default dflt (d !! key))
  | _ => Raise AttributeError
  end.

(** [key in entry], for a string [key]. *)
Definition py_in (key : string) (entry : json) : result bool :=
  match entry with
  | JDict d => Ok (bool_decide (is_Some (d !! key)))
  | JStr s => Ok (str_contains key s)
  | JList l =>
      Ok (existsb (λ v, match v with JStr s => String.eqb s key | _ => false end) l)
  | JNull | JBool _ | JNum _ => Raise TypeError
  end.

(** [entry[key]], for a string [key]. *)
Definition py_getitem (entry : json) (key : string) : result json :=
  match entry with
  | JDict d =>
      match d !! key with
      | Some v => Ok v
      | None => Raise KeyError
      end
  | _ => Raise TypeError
  end.

(** [entry[key] = value], for a string [key]. *)
Definition py_setitem (entry : json) (key : string) (value : json) : result json :=
  match entry with
  | JDict d => Ok (JDict (<[key := value]> d))
  | _ => Raise TypeError
  end.

(** ** The validator store: [MetadataCache] *)

(** The text of the metadata file.  A text either fails [json.loads] or
    denotes a value; a text that parses is represented by the value it
    denotes, which is also what [json.dumps] writes for that value. *)
Inductive document : Type :=
  | Garbled (text : string)
  | Json (v : json).

Definition json_loads (doc : document) : option json :=
  match doc with
  | Garbled _ => None
  | Json v => Some v
  end.

Definition json_dumps (v : json) : document := Json v.

Module MetadataCache.

Record t : Type := mk {
  data : json;
  _dirty : bool
}.

(** [file] is the content of [self.path], [None] when it does not exist. *)
Definition _load (file : option document) (self : t) : t :=
  match file with
  | None => self
  | Some doc =>
      match json_loads doc with
      | Some v => mk v (_dirty self)
      | None => mk (JDict ∅) (_dirty self)
      end
  end.

Definition __init__ (file : option document) : t :=
  _load file (mk (JDict ∅) false).

Definition headers_for (self : t) (offset : Z) : result (gmap string json) :=
  entry ← py_get (data self) (pretty offset) (JDict ∅);
  has_etag ← py_in "etag" entry;
  headers ← (if has_etag : bool
             then v ← py_getitem entry "etag"; mret (<["etag" := v]> ∅)
             else mret ∅);
  has_lm ← py_in "last_modified" entry;
  if has_lm : bool
  then v ← py_getitem entry "last_modified";
       mret (<["last_modified" := v]> headers)
  else mret headers.

(** [entry] aliases the record stored in [data]: an assignment to it is
    written back under the key. *)
Definition update (self : t) (offset : Z) (etag last_modified : option string)
  : result t :=
  match data self with
  | JDict d =>
      let key := pretty offset in
      let entry := default (JDict ∅) (d !! key) in
      entry ← (if truthy etag
               then py_setitem entry "etag" (JStr (default EmptyString etag))
               else mret entry);
      entry ← (if truthy last_modified
               then py_setitem entry "last_modified"
                      (JStr (default EmptyString last_modified))
               else mret entry);
      mret (mk (JDict (<[key := entry]> d)) true)
  | _ => Raise AttributeError
  end.

(** Returns the store and the text written to [self.path], if any; the
    write itself is taken to succeed. *)
Definition save (self : t) : t * option document :=
  if negb (_dirty self) then (self, None)
  else (mk (data self) false, Some (json_dumps (data self))).

(** A table of records: the shape [update] builds. *)
Definition is_record (v : json) : bool :=
  match v with
  | JDict _ => true
  | _ => false
  end.

Definition is_table (v : json) : bool :=
  match v with
  | JDict d => bool_decide (map_Forall (λ _ e, is_record e = true) d)
  | _ => false
  end.

(** A record with neither field. *)
Definition is_blank (v : json) : bool :=
  match v with
  | JDict r =>
      bool_decide (r !! "etag" = None) && bool_decide (r !! "last_modified" = None)
  | _ => false
  end.

(** No key maps to a record with neither field. *)
Definition no_blank_record (self : t) : Prop :=
  ∀ d key r, data self = JDict d → d !! key = Some r → is_blank r = false.

(** The stores built from an empty table by calls of [update] that each
    bring a validator, and by [save]. *)
Inductive built : t → Prop :=
  | built_absent :
      built (__init__ None)
  | built_unreadable doc :
      json_loads doc = None → built (__init__ (Some doc))
  | built_update self offset etag last_modified self' :
      built self →
      truthy etag || truthy last_modified = true →
      update self offset etag last_modified = Ok self' →
      built self'
  | built_save self :
      built self → built (save self).1.

End MetadataCache.

(** ** Text helpers *)

Fixpoint zeros (n : nat) : string :=
  match n with
  | O => EmptyString
  | S n => "0" +:+ zeros n
  end.

(** [format(n, "03d")]: at least three characters, the sign included. *)
Definition format_03d (n : Z) : string :=
  if n <? 0
  then "-" +:+ zeros (2 - String.length (pretty (- n))) +:+ pretty (- n)
  else zeros (3 - String.length (pretty n)) +:+ pretty n.

(** [template.format(hour=n)] for a template whose replacement fields are
    all [{hour:03d}], as [BASE_URL] is; [skip] counts the characters of a
    field still to pass over. *)
Fixpoint format_hour_from (skip : nat) (template hour : string) : string :=
  match template with
  | EmptyString => EmptyString
  | String c rest =>
      match skip with
      | S k => format_hour_from k rest hour
      | O =>
          if String.prefix "{hour:03d}" template
          then hour +:+ format_hour_from 9 rest hour
          else String c (format_hour_from 0 rest hour)
      end
  end.

Definition format_hour (template : string) (hour : Z) : string :=
  format_hour_from 0 template (format_03d hour).

(** A Python [str] is held as the bytes of its UTF-8 encoding (a text
    with a lone surrogate has none and is left out).  [str.strip] removes
    the characters [str.isspace] accepts: U+0009 to U+000D and U+001C to
    U+0020, of one byte; U+0085 and U+00A0, of two bytes; U+1680, U+2000 to
    U+200A, U+2028, U+2029, U+202F, U+205F and U+3000, of three. *)
Definition is_space (c : Ascii.ascii) : bool :=
  let n := Ascii.nat_of_ascii c in
  ((9 <=? n) && (n <=? 13) || (28 <=? n) && (n <=? 32))%nat.

Definition is_space2 (c1 c2 : Ascii.ascii) : bool :=
  let n1 := Ascii.nat_of_ascii c1 in
  let n2 := Ascii.nat_of_ascii c2 in
  ((n1 =? 194) && ((n2 =? 133) || (n2 =? 160)))%nat.

Definition is_space3 (c1 c2 c3 : Ascii.ascii) : bool :=
  let n1 := Ascii.nat_of_ascii c1 in
  let n2 := Ascii.nat_of_ascii c2 in
  let n3 := Ascii.nat_of_ascii c3 in
  ((n1 =? 225) && (n2 =? 154) && (n3 =? 128)
   || (n1 =? 226) && (n2 =? 128)
      && ((128 <=? n3) && (n3 <=? 138)
          || (n3 =? 168) || (n3 =? 169) || (n3 =? 175))
   || (n1 =? 226) && (n2 =? 129) && (n3 =? 159)
   || (n1 =? 227) && (n2 =? 128) && (n3 =? 128))%nat.

(** [s.isspace()] for a text [s] of one character. *)
Definition isspace (s : string) : bool :=
  match s with
  | String c1 EmptyString => is_space c1
  | String c1 (String c2 EmptyString) => is_space2 c1 c2
  | String c1 (String c2 (String c3 EmptyString)) => is_space3 c1 c2 c3
  | _ => false
  end.

Fixpoint lstrip (s : string) : string :=
  match s with
  | EmptyString => EmptyString
  | String c1 rest1 =>
      if is_space c1 then lstrip rest1
      else
        match rest1 with
        | EmptyString => s
        | String c2 rest2 =>
            if is_space2 c1 c2 then lstrip rest2
            else
              match rest2 with
              | EmptyString => s
              | String c3 rest3 =>
                  if is_space3 c1 c2 c3 then lstrip rest3 else s
              end
        end
  end.

(** From the end: the bytes kept so far are dropped when, with the byte
    before them, they make up one character of white space. *)
Fixpoint rstrip (s : string) : string :=
  match s with
  | EmptyString => EmptyString
  | String c rest =>
      let kept := String c (rstrip rest) in
      if isspace kept then EmptyString else kept
  end.

(** [s.strip()]. *)
Definition strip (s : string) : string := rstrip (lstrip s).

(** [s.isascii()]. *)
Fixpoint isascii (s : string) : bool :=
  match s with
  | EmptyString => true
  | String c rest => (Ascii.nat_of_ascii c <? 128)%nat && isascii rest
  end.

(** [str().join(parts)]. *)
Definition join (parts : list string) : string :=
  foldr String.append EmptyString parts.

(** [range(lo, hi)] and [range(lo, hi, step)] for a positive [step]. *)
Definition range (lo hi : Z) : list Z := seqZ lo (hi - lo).

Definition range_step (lo hi step : Z) : list Z :=
  (λ i, lo + i * step) <$> seqZ 0 ((hi - lo + step - 1) `div` step).

(** ** Constants *)

Definition BASE_URL : string :=
  "https://services.meteored.com/img/models/ecmwf/ECMWF_{hour:03d}_ES_SFC_es-ES_es.png".
Definition DEFAULT_MAX_CONCURRENT : Z := 4.
Definition NEIGHBOR_PREFETCH : Z := 2.

Definition build_offsets : list Z := range_step 6 241 6.

(** ** Qt values *)

(** A decoded image. *)
Record QPixmap : Type := {
  width : Z;
  height : Z;
  pixels : list byte
}.

Inductive CacheLoadControl : Type :=
  | AlwaysNetwork
  | PreferNetwork.

Record QNetworkRequest : Type := {
  url : string;
  CacheLoadControlAttribute : CacheLoadControl;
  rawHeaders : gmap string string
}.

Definition setAttribute (request : QNetworkRequest) (c : CacheLoadControl)
  : QNetworkRequest :=
  {| url := url request;
     CacheLoadControlAttribute := c;
     rawHeaders := rawHeaders request |}.

Definition setRawHeader (request : QNetworkRequest) (name value : string)
  : QNetworkRequest :=
  {| url := url request;
     CacheLoadControlAttribute := CacheLoadControlAttribute request;
     rawHeaders := <[name := value]> (rawHeaders request) |}.

Inductive NetworkError : Type :=
  | NoError
  | Failed.

(** What the network answers to a request.  The two headers are the raw
    header bytes as [decode("utf-8", "ignore")] gives them. *)
Record Answer : Type := {
  HttpStatusCodeAttribute : option Z;
  header_ETag : string;
  header_Last_Modified : string;
  error : NetworkError;
  errorString : string;
  readAll : list byte
}.

(** A reply object: the request sent, its [offset] property, and the
    answer once the request has finished. *)
Record QNetworkReply : Type := {
  property_offset : Z;
  request_of : QNetworkRequest;
  answer : Answer
}.

(** The signals of [ImageFetcher]. *)
Inductive Signal : Type :=
  | imageLoaded (offset : Z) (pixmap : QPixmap) (meta : gmap string string)
  | notModified (offset : Z)
  | imageError (offset : Z) (text : string)
  | progressChanged (done total : Z)
  | batchFinished.

(** ** The fetch scheduler: [ImageFetcher] *)

Module ImageFetcher.

Record t : Type := mk {
  base_url : string;
  _queue : list Z;
  _headers_by_offset : gmap Z (gmap string string);
  _in_flight : Z;
  _done : Z;
  _total : Z;
  _max_concurrent : Z;
  _force_network : bool
}.

Definition __init__ (base_url : string) : t :=
  mk base_url [] ∅ 0 0 0 DEFAULT_MAX_CONCURRENT false.

Definition set_max_concurrent (self : t) (value : Z) : t :=
  mk (base_url self) (_queue self) (_headers_by_offset self) (_in_flight self)
     (_done self) (_total self) (Z.max 1 value) (_force_network self).

(** The request one turn of the loop of [_start_more] builds for [offset]. *)
Definition build_request (self : t) (offset : Z) : QNetworkRequest :=
  let request :=
    {| url := format_hour (base_url self) offset;
       CacheLoadControlAttribute := PreferNetwork;
       rawHeaders := ∅ |} in
  let request :=
    if _force_network self
    then setAttribute request AlwaysNetwork
    else setAttribute request PreferNetwork in
  let headers := default ∅ (_headers_by_offset self !! offset) in
  let etag := headers !! "etag" in
  let last_modified := headers !! "last_modified" in
  let request :=
    if truthy etag
    then setRawHeader request "If-None-Match" (default EmptyString etag)
    else request in
  if truthy last_modified
  then setRawHeader request "If-Modified-Since" (default EmptyString last_modified)
  else request.

(** The loop of [_start_more], from a queue and an in-flight count:
    the queue left, the count reached and the requests handed to the
    network manager, in order, each with its [offset] property. *)
Fixpoint start_more_loop (self : t) (queue : list Z) (in_flight : Z)
  : list Z * Z * list (Z * QNetworkRequest) :=
  match queue with
  | [] => ([], in_flight, [])
  | offset :: rest =>
      if in_flight <? _max_concurrent self
      then
        let '(queue', in_flight', sent) :=
          start_more_loop self rest (in_flight + 1) in
        (queue', in_flight', (offset, build_request self offset) :: sent)
      else (queue, in_flight, [])
  end.

Definition _start_more (self : t) : t * list (Z * QNetworkRequest) :=
  let '(queue, in_flight, sent) :=
    start_more_loop self (_queue self) (_in_flight self) in
  (mk (base_url self) queue (_headers_by_offset self) in_flight
      (_done self) (_total self) (_max_concurrent self) (_force_network self),
   sent).

(** Returns the scheduler, the signals emitted and the requests sent. *)
Definition fetch_offsets (self : t) (offsets : list Z)
    (headers_by_offset : option (gmap Z (gmap string string)))
    (force_network : bool)
  : t * list Signal * list (Z * QNetworkRequest) :=
  let self :=
    mk (base_url self) offsets (default ∅ headers_by_offset) 0 0
       (Z.of_nat (length offsets)) (_max_concurrent self) force_network in
  if _total self =? 0
  then (self, [batchFinished], [])
  else let '(self, sent) := _start_more self in (self, [], sent).

Section Finished.

(** [QPixmap.loadFromData]: the image the bytes decode to, if any. *)
Variable loadFromData : list byte → option QPixmap.

(** The signal that classifies a reply. *)
Definition classify (reply : QNetworkReply) : Signal :=
  let offset := property_offset reply in
  let status := HttpStatusCodeAttribute (answer reply) in
  let etag := strip (header_ETag (answer reply)) in
  let last_modified := strip (header_Last_Modified (answer reply)) in
  let meta : gmap string string := ∅ in
  let meta := if truthy (Some etag) then <["etag" := etag]> meta else meta in
  let meta :=
    if truthy (Some last_modified)
    then <["last_modified" := last_modified]> meta
    else meta in
  if bool_decide (status = Some 304)
  then notModified offset
  else
    match error (answer reply) with
    | NoError =>
        match loadFromData (readAll (answer reply)) with
        | Some pixmap => imageLoaded offset pixmap meta
        | None => imageError offset "invalid image data"
        end
    | Failed => imageError offset (errorString (answer reply))
    end.

Definition _on_finished (self : t) (reply : QNetworkReply)
  : t * list Signal * list (Z * QNetworkRequest) :=
  let first := classify reply in
  let self :=
    mk (base_url self) (_queue self) (_headers_by_offset self)
       (_in_flight self - 1) (_done self + 1) (_total self)
       (_max_concurrent self) (_force_network self) in
  let progress := progressChanged (_done self) (_total self) in
  if _done self =? _total self
  then (self, [first; progress; batchFinished], [])
  else
    let '(self, sent) := _start_more self in
    (self, [first; progress], sent).

End Finished.

End ImageFetcher.

(** ** The content cache: [ForecastCache] *)

Module ForecastCache.

(** The files of the cache directory, by name. *)
Record t : Type := mk {
  files : gmap string (list byte)
}.

Definition path_for (offset : Z) : string :=
  "ECMWF_" +:+ format_03d offset +:+ ".png".

Section Codec.

Variable loadFromData : list byte → option QPixmap.
(** The PNG bytes [pixmap.save(path, "PNG")] writes. *)
Variable toPNG : QPixmap → list byte.

Definition load (self : t) (offset : Z) : option QPixmap :=
  match files self !! path_for offset with
  | None => None
  | Some content => loadFromData content
  end.

Definition save (self : t) (offset : Z) (pixmap : QPixmap) : t :=
  mk (<[path_for offset := toPNG pixmap]> (files self)).

End Codec.

End ForecastCache.

(** ** The window: the slots connected to the scheduler, and the planner *)

Module MainWindow.

(** The part of the window the scheduler's signals reach; labels, the
    image view and the base time are left out.  [metadata_file] is the
    content of the file behind [metadata]. *)
Record t : Type := mk {
  offsets : list Z;
  frames : gmap Z (option QPixmap);
  cache : ForecastCache.t;
  metadata : MetadataCache.t;
  metadata_file : option document;
  _refresh_in_progress : bool;
  current_index : Z;
  _progress_total : Z;
  _progress_updated : Z;
  _progress_unchanged : Z
}.

(** [l[i]], with Python's negative indices. *)
Definition py_index (l : list Z) (i : Z) : result Z :=
  let n := Z.of_nat (length l) in
  let j := if i <? 0 then n + i else i in
  if (0 <=? j) && (j <? n)
  then match l !! Z.to_nat j with
       | Some x => Ok x
       | None => Raise IndexError
       end
  else Raise IndexError.

(** [a % b]. *)
Definition py_mod (a b : Z) : result Z :=
  if b =? 0 then Raise ZeroDivisionError else Ok (a `mod` b).

(** The inner function [add_index], on the pair of [order] and [seen]. *)
Definition add_index (offsets : list Z) (st : list Z * gset Z) (idx : Z)
  : result (list Z * gset Z) :=
  offset ← py_index offsets idx;
  if bool_decide (offset ∈ st.2)
  then mret st
  else mret (st.1 ++ [offset], {[offset]} ∪ st.2).

(** The loop over [range(1, NEIGHBOR_PREFETCH + 1)]. *)
Fixpoint add_neighbours (offsets : list Z) (current_index total : Z)
    (deltas : list Z) (st : list Z * gset Z) : result (list Z * gset Z) :=
  match deltas with
  | [] => mret st
  | delta :: deltas =>
      ahead ← py_mod (current_index + delta) total;
      st ← add_index offsets st ahead;
      behind ← py_mod (current_index - delta) total;
      st ← add_index offsets st behind;
      add_neighbours offsets current_index total deltas st
  end.

(** The last loop, over all offsets. *)
Fixpoint add_rest (rest : list Z) (st : list Z * gset Z) : list Z * gset Z :=
  match rest with
  | [] => st
  | offset :: rest =>
      if bool_decide (offset ∈ st.2)
      then add_rest rest st
      else add_rest rest (st.1 ++ [offset], {[offset]} ∪ st.2)
  end.

Definition plan (offsets : list Z) (current_index : Z) : result (list Z) :=
  let total := Z.of_nat (length offsets) in
  st ← add_index offsets ([], ∅) current_index;
  st ← add_neighbours offsets current_index total
         (range 1 (NEIGHBOR_PREFETCH + 1)) st;
  mret (add_rest offsets st).1.

Definition _build_priority_offsets (self : t) : result (list Z) :=
  plan (offsets self) (current_index self).

(** What the planner keeps true of [order] and [seen]: no offset is
    placed twice, and [seen] holds the offsets placed. *)
Definition placed_once (st : list Z * gset Z) : Prop :=
  NoDup st.1 ∧ ∀ x, x ∈ st.2 ↔ x ∈ st.1.

(** A list without the repeats of its earlier elements. *)
Definition first_occurrences (l : list Z) : list Z :=
  foldl (λ kept x, if bool_decide (x ∈ kept) then kept else kept ++ [x]) [] l.

Section Slots.

Variable loadFromData : list byte → option QPixmap.
Variable toPNG : QPixmap → list byte.

(** The fields [__init__] sets before it builds the widgets, from the
    files of the cache directory and the metadata file found at start.
    The constructor goes on to read the settings, which can move
    [current_index], and to start the first refresh, which is
    [refresh_images]; neither is part of this definition. *)
Definition __init__ (cache_files : gmap string (list byte))
    (metadata_file : option document) : t :=
  let offsets := build_offsets in
  let frames : gmap Z (option QPixmap) :=
    list_to_map ((λ offset, (offset, None)) <$> offsets) in
  let cache := ForecastCache.mk cache_files in
  let metadata := MetadataCache.__init__ metadata_file in
  let frames :=
    foldl (λ frames offset,
             match ForecastCache.load loadFromData cache offset with
             | Some cached => <[offset := Some cached]> frames
             | None => frames
             end) frames offsets in
  mk offsets frames cache metadata metadata_file false 0 0 0 0.

(** Moves the slider and redraws besides. *)
Definition _set_current_index (self : t) (index : Z) : t :=
  mk (offsets self) (frames self) (cache self) (metadata self)
     (metadata_file self) (_refresh_in_progress self) index
     (_progress_total self) (_progress_updated self)
     (_progress_unchanged self).

Definition _on_image_loaded (self : t) (offset : Z) (pixmap : QPixmap)
    (meta : gmap string string) : result t :=
  let frames := <[offset := Some pixmap]> (frames self) in
  let cache := ForecastCache.save toPNG (cache self) offset pixmap in
  metadata ← MetadataCache.update (metadata self) offset
               (meta !! "etag") (meta !! "last_modified");
  mret (mk (offsets self) frames cache metadata (metadata_file self)
           (_refresh_in_progress self) (current_index self)
           (_progress_total self) (_progress_updated self + 1)
           (_progress_unchanged self)).

Definition _on_image_not_modified (self : t) (offset : Z) : t :=
  mk (offsets self) (frames self) (cache self) (metadata self)
     (metadata_file self) (_refresh_in_progress self) (current_index self)
     (_progress_total self) (_progress_updated self)
     (_progress_unchanged self + 1).

(** Sets the status label only. *)
Definition _on_image_error (self : t) (offset : Z) (error_text : string) : t :=
  self.

(** Sets the progress label only. *)
Definition _on_fetch_progress (self : t) (done total : Z) : t := self.

Definition _on_batch_finished (self : t) : t :=
  let '(metadata, written) := MetadataCache.save (metadata self) in
  mk (offsets self) (frames self) (cache self) metadata
     (match written with
      | Some doc => Some doc
      | None => metadata_file self
      end)
     false (current_index self)
     (_progress_total self) (_progress_updated self)
     (_progress_unchanged self).

(** The slot each signal is connected to. *)
Definition slot (self : t) (signal : Signal) : result t :=
  match signal with
  | imageLoaded offset pixmap meta => _on_image_loaded self offset pixmap meta
  | notModified offset => mret (_on_image_not_modified self offset)
  | imageError offset text => mret (_on_image_error self offset text)
  | progressChanged done total => mret (_on_fetch_progress self done total)
  | batchFinished => mret (_on_batch_finished self)
  end.

(** The signals of one scheduler call, delivered in order. *)
Fixpoint deliver (self : t) (signals : list Signal) : result t :=
  match signals with
  | [] => mret self
  | signal :: signals => self ← slot self signal; deliver self signals
  end.

End Slots.

End MainWindow.

(** ** A batch: the scheduler and the requests the network holds *)

Module Batch.

(** [in_network] are the requests sent and not yet finished, [emitted]
    the signals of the batch so far.  The network manager reports each
    request it was given once, in any order, with any answer. *)
Record t : Type := mk {
  fetcher : ImageFetcher.t;
  in_network : list (Z * QNetworkRequest);
  emitted : list Signal
}.

(** No request is out: the state in which the window starts a batch. *)
Definition idle (s : t) : Prop := in_network s = [].

Definition created (base_url : string) : t :=
  mk (ImageFetcher.__init__ base_url) [] [].

Definition set_max_concurrent (s : t) (value : Z) : t :=
  mk (ImageFetcher.set_max_concurrent (fetcher s) value) (in_network s)
     (emitted s).

(** A batch starts with no request of an earlier one still out:
    [refresh_images] returns at once while [_refresh_in_progress] is set. *)
Definition start (self : ImageFetcher.t) (offsets : list Z)
    (headers_by_offset : option (gmap Z (gmap string string)))
    (force_network : bool) : t :=
  let '(self, signals, sent) :=
    ImageFetcher.fetch_offsets self offsets headers_by_offset force_network in
  mk self sent signals.

Section Network.

Variable loadFromData : list byte → option QPixmap.

(** The network finishes the [i]-th request it holds with [answer]. *)
Definition finish (s : t) (i : nat) (answer : Answer) : option t :=
  match in_network s !! i with
  | None => None
  | Some (offset, request) =>
      let reply :=
        {| property_offset := offset;
           request_of := request;
           answer := answer |} in
      let '(self, signals, sent) :=
        ImageFetcher._on_finished loadFromData (fetcher s) reply in
      Some (mk self (delete i (in_network s) ++ sent) (emitted s ++ signals))
  end.

Fixpoint run (s : t) (steps : list (nat * Answer)) : option t :=
  match steps with
  | [] => Some s
  | (i, answer) :: steps =>
      match finish s i answer with
      | Some s => run s steps
      | None => None
      end
  end.

(** The states of a scheduler whose cap changes, and whose batches
    start, only when no request is out. *)
Inductive reachable : t → Prop :=
  | reach_created base_url :
      reachable (created base_url)
  | reach_set_max_concurrent s value :
      reachable s → idle s → reachable (set_max_concurrent s value)
  | reach_fetch_offsets s offsets headers_by_offset force_network :
      reachable s → idle s →
      reachable (start (fetcher s) offsets headers_by_offset force_network)
  | reach_finished s i answer s' :
      reachable s → finish s i answer = Some s' → reachable s'.

End Network.

Definition is_batchFinished (signal : Signal) : bool :=
  match signal with
  | batchFinished => true
  | _ => false
  end.

Definition is_progressChanged (signal : Signal) : bool :=
  match signal with
  | progressChanged _ _ => true
  | _ => false
  end.

(** The signals that carry no key. *)
Definition keyless (signals : list Signal) : list Signal :=
  List.filter (λ signal, is_batchFinished signal || is_progressChanged signal)
    signals.

(** The key a signal is about. *)
Definition key_of (signal : Signal) : option Z :=
  match signal with
  | imageLoaded offset _ _ => Some offset
  | notModified offset => Some offset
  | imageError offset _ => Some offset
  | progressChanged _ _ => None
  | batchFinished => None
  end.

(** The keyless signals of a batch of [total] keys of which [done] are
    resolved. *)
Definition progress_signals (done total : Z) : list Signal :=
  ((λ k, progressChanged k total) <$> seqZ 1 done) ++
  (if bool_decide (done = total) then [batchFinished] else []).

(** The counters agree with the requests out and the signals emitted. *)
Record consistent (s : t) : Prop := {
  cap_positive : 1 ≤ ImageFetcher._max_concurrent (fetcher s);
  in_flight_counts :
    ImageFetcher._in_flight (fetcher s) = Z.of_nat (length (in_network s));
  in_flight_capped :
    ImageFetcher._in_flight (fetcher s) ≤ ImageFetcher._max_concurrent (fetcher s);
  queue_waits_for_cap :
    ImageFetcher._in_flight (fetcher s) < ImageFetcher._max_concurrent (fetcher s) →
    ImageFetcher._queue (fetcher s) = [];
  keys_accounted :
    ImageFetcher._done (fetcher s) + ImageFetcher._in_flight (fetcher s)
      + Z.of_nat (length (ImageFetcher._queue (fetcher s)))
    = ImageFetcher._total (fetcher s);
  done_nonnegative : 0 ≤ ImageFetcher._done (fetcher s);
  signals_so_far :
    keyless (emitted s)
    = progress_signals (ImageFetcher._done (fetcher s))
                       (ImageFetcher._total (fetcher s))
}.

(** Every request out is the one the scheduler builds for its key. *)
Definition built_by_scheduler (s : t) : Prop :=
  ∀ offset request,
    (offset, request) ∈ in_network s →
    request = ImageFetcher.build_request (fetcher s) offset.

End Batch.

(** ** Sample values *)

Module Sample.

(** A decoder that accepts nothing, and an encoder that keeps the pixels. *)
Definition no_image (content : list byte) : option QPixmap := None.
Definition pixels_only (pixmap : QPixmap) : list byte := pixels pixmap.

Definition not_modified : Answer :=
  {| HttpStatusCodeAttribute := Some 304;
     header_ETag := EmptyString;
     header_Last_Modified := EmptyString;
     error := NoError;
     errorString := EmptyString;
     readAll := [] |}.

Definition not_modified_reply : QNetworkReply :=
  {| property_offset := 6;
     request_of :=
       ImageFetcher.build_request (ImageFetcher.__init__ BASE_URL) 6;
     answer := not_modified |}.

(** A validator mapping with an etag for offset 6. *)
Definition etag_for_6 : gmap Z (gmap string string) :=
  {[ 6 := {[ "etag" := "abc" ]} ]}.

(** A window started on an empty cache directory, showing offset 90. *)
Definition window : MainWindow.t :=
  MainWindow._set_current_index (MainWindow.__init__ no_image ∅ None) 14.

End Sample.

(** ** Settings values *)

(** [c.lower()] for a character of one byte: the letters A to Z change. *)
Definition lower_char (c : Ascii.ascii) : Ascii.ascii :=
  let n := Ascii.nat_of_ascii c in
  if ((65 <=? n) && (n <=? 90))%nat then Ascii.ascii_of_nat (n + 32) else c.

(** [s.lower()] on ASCII text.  [bool_value] applies it to any text and
    compares the result with words of ASCII letters: a text with a
    character outside ASCII is lower-cased by [str.lower] to a text that
    has such a character again, or a k for U+212A, and so to none of the
    words, as here. *)
Fixpoint lower (s : string) : string :=
  match s with
  | EmptyString => EmptyString
  | String c rest => String (lower_char c) (lower rest)
  end.

(** [bool_value(value, default)].  A settings value is [None], a bool, an
    integer, a string or something else; the [json] constructors stand for
    these. *)
Definition bool_value (value : json) (default : bool) : bool :=
  match value with
  | JNull => default
  | JBool b => b
  | JNum n => negb (n =? 0)
  | JStr s =>
      bool_decide (lower (strip s) ∈ ["1"; "true"; "yes"; "y"; "on"]%string)
  | JList _ | JDict _ => default
  end.

(** ** Starting a refresh *)

Module Refresh.

(** The truth value of a value the store holds, as in [if etag:]. *)
Definition json_truthy (v : json) : bool :=
  match v with
  | JNull => false
  | JBool b => b
  | JNum n => negb (n =? 0)
  | JStr s => negb (String.eqb s EmptyString)
  | JList l => negb (Nat.eqb (length l) 0)
  | JDict d => negb (Nat.eqb (size d) 0)
  end.

(** [value.encode()]: the bytes of a text; no other value has the
    method. *)
Definition encode (v : json) : result string :=
  match v with
  | JStr s => Ok s
  | _ => Raise AttributeError
  end.

(** The fetcher as the window drives it.  [refresh_images] hands it the
    validators as the store holds them, so that a validator is any value
    here; [ImageFetcher] is the same fetcher with validators that are
    texts. *)
Record Fetcher : Type := mkFetcher {
  base_url : string;
  _queue : list Z;
  _headers_by_offset : gmap Z (gmap string json);
  _in_flight : Z;
  _done : Z;
  _total : Z;
  _max_concurrent : Z;
  _force_network : bool
}.

(** The fetcher [MainWindow.__init__] makes: [ImageFetcher(BASE_URL)]
    after [set_max_concurrent(DEFAULT_MAX_CONCURRENT)]. *)
Definition fetcher_init : Fetcher :=
  mkFetcher BASE_URL [] ∅ 0 0 0 (Z.max 1 DEFAULT_MAX_CONCURRENT) false.

(** The request one turn of the loop of [_start_more] builds for
    [offset], or the exception of [encode]. *)
Definition build_request (self : Fetcher) (offset : Z) : result QNetworkRequest :=
  let request :=
    {| url := format_hour (base_url self) offset;
       CacheLoadControlAttribute := PreferNetwork;
       rawHeaders := ∅ |} in
  let request :=
    if _force_network self
    then setAttribute request AlwaysNetwork
    else setAttribute request PreferNetwork in
  let headers := default ∅ (_headers_by_offset self !! offset) in
  let etag := default JNull (headers !! "etag") in
  let last_modified := default JNull (headers !! "last_modified") in
  request ← (if json_truthy etag
             then value ← encode etag;
                  mret (setRawHeader request "If-None-Match" value)
             else mret request);
  if json_truthy last_modified
  then value ← encode last_modified;
       mret (setRawHeader request "If-Modified-Since" value)
  else mret request.

(** The loop of [_start_more]: the queue left, the count reached, the
    requests handed to the network manager and the exception that ended
    the loop, if any.  An offset whose request raises has left the queue
    and is not counted. *)
Fixpoint start_more_loop (self : Fetcher) (queue : list Z) (in_flight : Z)
  : list Z * Z * list (Z * QNetworkRequest) * option PyError :=
  match queue with
  | [] => ([], in_flight, [], None)
  | offset :: rest =>
      if in_flight <? _max_concurrent self
      then
        match build_request self offset with
        | Raise e => (rest, in_flight, [], Some e)
        | Ok request =>
            let '(queue', in_flight', sent, raised) :=
              start_more_loop self rest (in_flight + 1) in
            (queue', in_flight', (offset, request) :: sent, raised)
        end
      else (queue, in_flight, [], None)
  end.

Definition _start_more (self : Fetcher)
  : Fetcher * list (Z * QNetworkRequest) * option PyError :=
  let '(queue, in_flight, sent, raised) :=
    start_more_loop self (_queue self) (_in_flight self) in
  (mkFetcher (base_url self) queue (_headers_by_offset self) in_flight
     (_done self) (_total self) (_max_concurrent self) (_force_network self),
   sent, raised).

(** Returns the fetcher, whether [batchFinished] was emitted, the
    requests sent and the exception raised, if any. *)
Definition fetch_offsets (self : Fetcher) (offsets : list Z)
    (headers_by_offset : option (gmap Z (gmap string json)))
    (force_network : bool)
  : Fetcher * bool * list (Z * QNetworkRequest) * option PyError :=
  let self :=
    mkFetcher (base_url self) offsets (default ∅ headers_by_offset) 0 0
      (Z.of_nat (length offsets)) (_max_concurrent self) force_network in
  if _total self =? 0
  then (self, true, [], None)
  else let '(self, sent, raised) := _start_more self in
       (self, false, sent, raised).

(** The window and its fetcher; [auto_base_check] is whether the box for
    the automatic base time is checked. *)
Record t : Type := mk {
  window : MainWindow.t;
  fetcher : Fetcher;
  auto_base_check : bool
}.

(** The dict comprehension over [self.offsets]. *)
Fixpoint collect_headers (metadata : MetadataCache.t) (offsets : list Z)
    (acc : gmap Z (gmap string json)) : result (gmap Z (gmap string json)) :=
  match offsets with
  | [] => mret acc
  | offset :: offsets =>
      headers ← MetadataCache.headers_for metadata offset;
      collect_headers metadata offsets (<[offset := headers]> acc)
  end.

(** [refresh_images]: the window and fetcher it leaves, the requests it
    sends and the exception it raises, if any.  An exception leaves what
    was assigned before it.  With the box checked [_apply_auto_base] draws
    the current frame again, which reads [offsets[current_index]]; the
    labels, the view and the base time are left out. *)
Definition refresh_images (self : t)
  : t * list (Z * QNetworkRequest) * option PyError :=
  if MainWindow._refresh_in_progress (window self)
  then (self, [], None)
  else
    let marked :=
      MainWindow.mk (MainWindow.offsets (window self))
        (MainWindow.frames (window self)) (MainWindow.cache (window self))
        (MainWindow.metadata (window self))
        (MainWindow.metadata_file (window self)) true
        (MainWindow.current_index (window self))
        (Z.of_nat (length (MainWindow.offsets (window self)))) 0 0 in
    let raise e := (mk marked (fetcher self) (auto_base_check self), [], Some e) in
    match (if auto_base_check self
           then MainWindow.py_index (MainWindow.offsets marked)
                  (MainWindow.current_index marked)
           else Ok 0) with
    | Raise e => raise e
    | Ok _ =>
        match collect_headers (MainWindow.metadata marked)
                (MainWindow.offsets marked) ∅ with
        | Raise e => raise e
        | Ok headers_by_offset =>
            match MainWindow._build_priority_offsets marked with
            | Raise e => raise e
            | Ok order =>
                let '(fetcher, finished, sent, raised) :=
                  fetch_offsets (fetcher self) order (Some headers_by_offset)
                    false in
                (mk (if finished : bool
                     then MainWindow._on_batch_finished marked
                     else marked) fetcher (auto_base_check self),
                 sent, raised)
            end
        end
    end.








End Refresh.

(** ** Moving between frames *)

Definition LOOP_MODES : list string := ["Loop"; "Ping-pong"; "Stop"]%string.

Inductive Key : Type :=
  | Key_Space
  | Key_Left
  | Key_Right
  | Key_Up
  | Key_Down
  | Key_Home
  | Key_End
  | Key_Z
  | Key_other.

Module Player.

(** The window with the fields that steer playback; [play_button] is
    whether the play button is checked. *)
Record t : Type := mk {
  window : MainWindow.t;
  loop_mode : string;
  play_direction : Z;
  play_button : bool
}.

Definition current_index (self : t) : Z := MainWindow.current_index (window self).

(** [len(self.offsets)]. *)
Definition frame_count (self : t) : Z :=
  Z.of_nat (length (MainWindow.offsets (window self))).

Definition _set_current_index (self : t) (index : Z) : t :=
  mk (MainWindow._set_current_index (window self) index) (loop_mode self)
     (play_direction self) (play_button self).

Definition _prev_frame (self : t) : result t :=
  let self := mk (window self) (loop_mode self) (-1) (play_button self) in
  index ← MainWindow.py_mod (current_index self - 1) (frame_count self);
  mret (_set_current_index self index).

Definition _next_frame_manual (self : t) : result t :=
  let self := mk (window self) (loop_mode self) 1 (play_button self) in
  index ← MainWindow.py_mod (current_index self + 1) (frame_count self);
  mret (_set_current_index self index).

(** Unchecking the button stops the play timer. *)
Definition _pause_playback (self : t) : t :=
  if play_button self
  then mk (window self) (loop_mode self) (play_direction self) false
  else self.

Definition _next_frame_auto (self : t) : result t :=
  if String.eqb (loop_mode self) "Stop"
     && (current_index self =? frame_count self - 1)
  then mret (_pause_playback self)
  else if String.eqb (loop_mode self) "Ping-pong"
  then
    let direction :=
      if (0 <? play_direction self) && (current_index self =? frame_count self - 1)
      then -1
      else if (play_direction self <? 0) && (current_index self =? 0)
      then 1
      else play_direction self in
    let self := mk (window self) (loop_mode self) direction (play_button self) in
    mret (_set_current_index self (current_index self + direction))
  else
    index ← MainWindow.py_mod (current_index self + 1) (frame_count self);
    mret (_set_current_index self index).

(** [int(hours / 6)] is the quotient rounded towards zero, for the hours a
    key press passes (the float quotient is exact enough far beyond them). *)
Definition _jump_hours (self : t) (hours : Z) : result t :=
  let steps := hours `quot` 6 in
  index ← MainWindow.py_mod (current_index self + steps) (frame_count self);
  mret (_set_current_index self index).

Definition _on_slider_changed (self : t) (value : Z) : t :=
  if bool_decide (value ≠ current_index self)
  then mk (MainWindow._set_current_index (window self) value) (loop_mode self)
          (play_direction self) (play_button self)
  else self.

Definition _on_loop_mode_changed (self : t) (text : string) : t :=
  if bool_decide (text ∈ LOOP_MODES)
  then mk (window self) text (play_direction self) (play_button self)
  else self.

(** [keyPressEvent]; the zoom button of [Key_Z] is not part of the state. *)
Definition keyPressEvent (self : t) (key : Key) : result t :=
  match key with
  | Key_Space =>
      mret (mk (window self) (loop_mode self) (play_direction self)
              (negb (play_button self)))
  | Key_Left => _prev_frame self
  | Key_Right => _next_frame_manual self
  | Key_Up => _jump_hours self 24
  | Key_Down => _jump_hours self (-24)
  | Key_Home => mret (_set_current_index self 0)
  | Key_End => mret (_set_current_index self (frame_count self - 1))
  | Key_Z | Key_other => mret self
  end.

(** The frame shown is one of the frames, and playback runs forwards or
    backwards. *)
Definition steady (self : t) : Prop :=
  0 ≤ current_index self < frame_count self ∧
  (play_direction self = 1 ∨ play_direction self = -1).

End Player.

(** * Properties *)

(** ** The definitions on sample inputs *)

Module Checks.

Example format_03d_pads : format_03d 6 = "006"%string.
Proof. reflexivity. Qed.

Example format_03d_wide : format_03d 1234 = "1234"%string.
Proof. reflexivity. Qed.

Example url_of_6 :
  format_hour BASE_URL 6
  = "https://services.meteored.com/img/models/ecmwf/ECMWF_006_ES_SFC_es-ES_es.png"%string.
Proof. reflexivity. Qed.

Example path_of_90 : ForecastCache.path_for 90 = "ECMWF_090.png"%string.
Proof. reflexivity. Qed.

Example strip_spaces : strip "  W/abc " = "W/abc"%string.
Proof. reflexivity. Qed.

Example strip_no_break_space :
  strip (String (Ascii.ascii_of_nat 194) (String (Ascii.ascii_of_nat 160) "abc")
         +:+ String (Ascii.ascii_of_nat 226)
               (String (Ascii.ascii_of_nat 128)
                  (String (Ascii.ascii_of_nat 131) EmptyString)))
  = "abc"%string.
Proof. reflexivity. Qed.

Example plan_from_first :
  (take 5 <$> MainWindow.plan build_offsets 0) = Ok [6; 12; 240; 18; 234].
Proof. vm_compute. reflexivity. Qed.

Example plan_out_of_range : MainWindow.plan build_offsets 40 = Raise IndexError.
Proof. reflexivity. Qed.

Example headers_of_known_key :
  MetadataCache.headers_for
    (MetadataCache.mk (JDict {[ "6" := JDict {[ "etag" := JStr "abc" ]} ]}) false) 6
  = Ok {[ "etag" := JStr "abc" ]}.
Proof. reflexivity. Qed.

Example headers_of_null_record :
  MetadataCache.headers_for
    (MetadataCache.__init__ (Some (Json (JDict {[ "6" := JNull ]})))) 6
  = Raise TypeError.
Proof. reflexivity. Qed.

(** A loaded image whose response has no validator; the slot of
    [imageLoaded] then leaves a record with neither field. *)
Example image_without_validator :
  let pixmap := {| width := 1; height := 1; pixels := [] |} in
  MetadataCache.data <$>
    (MainWindow.metadata <$>
       MainWindow.slot Sample.pixels_only Sample.window (imageLoaded 6 pixmap ∅))
  = Ok (JDict {[ "6" := JDict ∅ ]}).
Proof. reflexivity. Qed.

End Checks.

(** ** The validator store *)

Module MetadataCacheFacts.
Import MetadataCache.

Lemma is_table_spec v :
  is_table v = true ↔
  ∃ d, v = JDict d ∧ ∀ key e, d !! key = Some e → ∃ r, e = JDict r.
Proof.
  split.
  - destruct v as [| | | | |d]; simpl; try discriminate.
    intros Hd%bool_decide_eq_true. exists d. split; [done|].
    intros key e He. specialize (Hd key e He).
    destruct e; simpl in Hd; try discriminate. eauto.
  - intros (d & -> & Hd). simpl. apply bool_decide_eq_true.
    intros key e He. destruct (Hd key e He) as [r ->]. done.
Qed.

Lemma is_table_empty : is_table (JDict ∅) = true.
Proof. reflexivity. Qed.

Lemma entry_of_table d key :
  is_table (JDict d) = true → ∃ r, default (JDict ∅) (d !! key) = JDict r.
Proof.
  intros (d' & [= <-] & Hd)%is_table_spec.
  destruct (d !! key) as [e|] eqn:He; simpl; eauto.
Qed.

(** The headers read off a record. *)
Lemma headers_of_record d key r :
  default (JDict ∅) (d !! pretty key) = JDict r →
  ∃ h, headers_for (mk (JDict d) false) key = Ok h ∧
       ∀ dirty, headers_for (mk (JDict d) dirty) key = Ok h.
Proof.
  intros Hr. unfold headers_for. simpl. rewrite Hr. simpl.
  destruct (r !! "etag") as [e|] eqn:He;
    destruct (r !! "last_modified") as [l|] eqn:Hl; simpl;
    repeat (case_bool_decide as Hdec; simpl;
            try (exfalso; apply Hdec; eauto; done);
            try (destruct Hdec as [? [=]]));
    eauto.
Qed.

Lemma headers_for_table self key :
  is_table (data self) = true → ∃ h, headers_for self key = Ok h.
Proof.
  destruct self as [v dirty]. simpl. intros Ht.
  destruct v as [| | | | |d]; try discriminate.
  destruct (entry_of_table d (pretty key) Ht) as [r Hr].
  destruct (headers_of_record d key r Hr) as (h & _ & Hh). eauto.
Qed.

Lemma headers_for_empty dirty key :
  headers_for (mk (JDict ∅) dirty) key = Ok ∅.
Proof. reflexivity. Qed.

(** [update] on a table: it returns, and what it leaves. *)
Lemma update_table d dirty offset etag last_modified :
  is_table (JDict d) = true →
  ∃ r, update (mk (JDict d) dirty) offset etag last_modified
         = Ok (mk (JDict (<[pretty offset := JDict r]> d)) true) ∧
       (truthy etag = true → is_Some (r !! "etag")) ∧
       (truthy last_modified = true → is_Some (r !! "last_modified")).
Proof.
  intros Ht. destruct (entry_of_table d (pretty offset) Ht) as [r Hr].
  unfold update. simpl. rewrite Hr.
  destruct (truthy etag), (truthy last_modified); simpl;
    eexists; (split; [reflexivity|]); split; intros; try discriminate;
    simplify_map_eq; eauto.
Qed.

Lemma update_keeps_table self offset etag last_modified self' :
  is_table (data self) = true →
  update self offset etag last_modified = Ok self' →
  is_table (data self') = true.
Proof.
  destruct self as [v dirty]. simpl. intros Ht.
  destruct v as [| | | | |d]; try discriminate.
  destruct (update_table d dirty offset etag last_modified Ht) as (r & -> & _).
  intros [= <-]. apply is_table_spec in Ht as (d' & [= <-] & Hd).
  apply is_table_spec. eexists. split; [done|].
  intros key e. destruct (decide (pretty offset = key)) as [<-|Hne].
  - rewrite lookup_insert_eq. intros [= <-]. eauto.
  - rewrite lookup_insert_ne by done. apply Hd.
Qed.

Lemma update_returns self offset etag last_modified :
  is_table (data self) = true →
  returns (update self offset etag last_modified) = true.
Proof.
  destruct self as [v dirty]. simpl. intros Ht.
  destruct v as [| | | | |d]; try discriminate.
  by destruct (update_table d dirty offset etag last_modified Ht) as (r & -> & _).
Qed.

Lemma update_dirty self offset etag last_modified self' :
  update self offset etag last_modified = Ok self' → _dirty self' = true.
Proof.
  unfold update. destruct (data self) as [| | | | |d]; try discriminate.
  destruct (default (JDict ∅) (d !! pretty offset)) as [| | | | |r];
    destruct (truthy etag), (truthy last_modified); simpl;
    try discriminate; by intros [= <-].
Qed.

Lemma built_table self : built self → is_table (data self) = true.
Proof.
  induction 1 as [|doc Hdoc|self offset etag lm self' _ IH _ Hup|self _ IH].
  - reflexivity.
  - unfold __init__, _load. rewrite Hdoc. reflexivity.
  - eapply update_keeps_table; eauto.
  - unfold save. by destruct (_dirty self).
Qed.

Lemma blank_iff r :
  is_blank (JDict r) = false ↔
  is_Some (r !! "etag") ∨ is_Some (r !! "last_modified").
Proof.
  unfold is_blank.
  destruct (r !! "etag"), (r !! "last_modified"); simpl;
    split; intros H; try done; eauto.
  destruct H as [[? [=]]|[? [=]]].
Qed.

(** C4, as amended: in every store built from an empty table (no
    document, or one that does not load) by calls of [update] that each
    bring a non-empty etag or last_modified, and by [save], no key maps to
    a record with neither field; on such a store [update] with neither an
    etag nor a last_modified, for a key that has no record, returns and
    leaves a record with neither field under that key. *)
Theorem built_store_has_no_blank_record (self : t) :
  built self →
  no_blank_record self ∧
  ∀ offset etag last_modified d,
    truthy etag = false → truthy last_modified = false →
    data self = JDict d → d !! pretty offset = None →
    update self offset etag last_modified
    = Ok (mk (JDict (<[pretty offset := JDict ∅]> d)) true).
Proof.
  intros Hb. split.
  - pose proof (built_table self Hb) as Ht. revert Ht.
    induction Hb as [|doc Hdoc|self offset etag lm self' Hb IH Hsome Hup|self Hb IH].
    + intros _ d key r [= <-]. by rewrite lookup_empty.
    + intros _ d key r. unfold __init__, _load. rewrite Hdoc. simpl.
      intros [= <-]. by rewrite lookup_empty.
    + intros _. pose proof (built_table self Hb) as Ht.
      specialize (IH Ht). destruct self as [v dirty]. simpl in Ht.
      destruct v as [| | | | |d]; try discriminate.
      destruct (update_table d dirty offset etag lm Ht) as (r & Hr & He & Hl).
      rewrite Hr in Hup. injection Hup as <-.
      intros d' key e [= <-].
      destruct (decide (pretty offset = key)) as [<-|Hne].
      * rewrite lookup_insert_eq. intros [= <-]. apply blank_iff.
        apply orb_true_iff in Hsome as [H|H]; auto.
      * rewrite lookup_insert_ne by done. by apply IH.
    + intros _. pose proof (built_table self Hb) as Ht. specialize (IH Ht).
      unfold save. by destruct (_dirty self).
  - intros offset etag lm d He Hl Hdata Hnone. unfold update.
    rewrite Hdata, He, Hl, Hnone. reflexivity.
Qed.

Lemma built_store_has_no_blank_record_witness :
  ∃ self', update (__init__ None) 6 (Some "abc") None = Ok self' ∧
           no_blank_record self'.
Proof.
  eexists. split; [reflexivity|].
  apply built_store_has_no_blank_record.
  eapply (built_update (__init__ None) 6 (Some "abc") None);
    [apply built_absent | reflexivity | reflexivity].
Defined.

(** C4, as stated, fails: on the empty store, [update] with neither an
    etag nor a last_modified leaves a record with neither field. *)
Lemma update_without_validator_makes_blank_record :
  no_blank_record (__init__ None) ∧
  ∃ self', update (__init__ None) 6 None None = Ok self' ∧
           data self' = JDict {[ "6" := JDict ∅ ]} ∧
           ¬ no_blank_record self'.
Proof.
  split.
  - intros d key r [= <-]. by rewrite lookup_empty.
  - eexists. split; [reflexivity|]. split; [reflexivity|].
    intros H. specialize (H _ "6"%string (JDict ∅) eq_refl eq_refl).
    discriminate.
Qed.

(** C7, as amended: a document that does not load gives the empty table;
    [headers_for] then returns the empty mapping for every key; on every
    store that is a table of records [headers_for] returns a mapping; and
    [update] followed by [save] writes a document that loads again, to the
    table in memory. *)
Theorem unreadable_document_loads_empty
    (doc : document) (offset : Z) (etag last_modified : option string) :
  json_loads doc = None →
  data (__init__ (Some doc)) = JDict ∅ ∧
  (∀ key, headers_for (__init__ (Some doc)) key = Ok ∅) ∧
  (∀ store key, is_table (data store) = true →
                ∃ h, headers_for store key = Ok h) ∧
  ∃ self' text,
    update (__init__ (Some doc)) offset etag last_modified = Ok self' ∧
    save self' = (mk (data self') false, Some text) ∧
    json_loads text = Some (data self') ∧
    is_table (data self') = true.
Proof.
  intros Hdoc. unfold __init__, _load. rewrite Hdoc.
  split; [done|]. split; [intros key; apply headers_for_empty|].
  split; [intros store key; apply headers_for_table|].
  destruct (update_table ∅ false offset etag last_modified is_table_empty)
    as (r & Hr & _).
  eexists _, _. split; [exact Hr|]. split; [reflexivity|].
  split; [reflexivity|].
  eapply update_keeps_table; [|exact Hr]. reflexivity.
Qed.

Lemma unreadable_document_loads_empty_witness :
  json_loads (Garbled "{") = None ∧
  data (__init__ (Some (Garbled "{"))) = JDict ∅ ∧
  ∀ key, headers_for (__init__ (Some (Garbled "{"))) key = Ok ∅.
Proof.
  split; [reflexivity|].
  destruct (unreadable_document_loads_empty (Garbled "{") 6 (Some "abc") None
              eq_refl) as (Hdata & Hheaders & _).
  split; [exact Hdata|exact Hheaders].
Defined.

(** C7, as stated, fails: a document that loads, to a value that is not
    a table, makes [headers_for] raise. *)
Lemma headers_for_raises_on_a_list :
  headers_for (__init__ (Some (Json (JList [])))) 6 = Raise AttributeError.
Proof. reflexivity. Qed.

(** C8: after a [save], a second [save] with no [update] in between
    writes nothing and leaves the store as it is. *)
Theorem save_twice_writes_once (self : t) :
  save (save self).1 = ((save self).1, None) ∧
  (save self).2 = (if _dirty self then Some (json_dumps (data self)) else None).
Proof. by destruct self as [v []]. Qed.

(** C10: every call of [update] that returns leaves the dirty flag set,
    also when neither an etag nor a last_modified is given, in which case
    [headers_for] answers as before for every key; the next [save] then
    writes the whole table. *)
Theorem update_always_marks_dirty
    (self : t) (offset : Z) (etag last_modified : option string) (self' : t) :
  update self offset etag last_modified = Ok self' →
  _dirty self' = true ∧
  save self' = (mk (data self') false, Some (json_dumps (data self'))) ∧
  (truthy etag = false → truthy last_modified = false →
   ∀ key, headers_for self' key = headers_for self key).
Proof.
  intros Hup. pose proof (update_dirty _ _ _ _ _ Hup) as Hd.
  split; [done|]. split; [unfold save; by rewrite Hd|].
  intros He Hl key. revert Hup. unfold update.
  destruct (data self) as [| | | | |d] eqn:Hdata; try discriminate.
  rewrite He, Hl. simpl. intros [= <-].
  unfold headers_for. simpl. rewrite Hdata. simpl.
  destruct (decide (pretty offset = pretty key)) as [<-|Hne].
  - by rewrite lookup_insert_eq.
  - by rewrite lookup_insert_ne.
Qed.

Lemma update_always_marks_dirty_witness :
  ∃ self',
    update (save (__init__ None)).1 6 None None = Ok self' ∧
    _dirty self' = true ∧
    save self' = (mk (data self') false, Some (json_dumps (data self'))).
Proof.
  eexists. split; [reflexivity|].
  destruct (update_always_marks_dirty (save (__init__ None)).1 6 None None
              _ eq_refl) as (Hdirty & Hsave & _).
  split; [exact Hdirty|exact Hsave].
Defined.

End MetadataCacheFacts.

(** ** The priority planner *)

Module PlannerFacts.
Import MainWindow.

Lemma py_index_elem l i x : py_index l i = Ok x → x ∈ l.
Proof.
  unfold py_index. case_match; [|discriminate].
  destruct (l !! _) as [y|] eqn:Hy; [|discriminate].
  intros [= <-]. by eapply list_elem_of_lookup_2.
Qed.

Lemma py_index_returns l i :
  0 ≤ i < Z.of_nat (length l) → returns (py_index l i) = true.
Proof.
  intros Hi. unfold py_index.
  destruct (i <? 0) eqn:Hneg; [lia|].
  destruct ((0 <=? i) && (i <? Z.of_nat (length l))) eqn:Hin; [|lia].
  destruct (l !! Z.to_nat i) as [y|] eqn:Hy; [done|].
  apply lookup_ge_None in Hy. lia.
Qed.

Lemma placed_once_add st x :
  placed_once st → x ∉ st.2 → placed_once (st.1 ++ [x], {[x]} ∪ st.2).
Proof.
  intros [Hnd Hseen] Hx. split; simpl.
  - apply NoDup_app. split; [done|]. split; [|apply NoDup_singleton].
    intros y Hy ->%list_elem_of_singleton. apply Hx. by apply Hseen.
  - intros y. rewrite elem_of_union, elem_of_singleton, elem_of_app,
      list_elem_of_singleton, Hseen. tauto.
Qed.

Lemma add_index_spec offsets st idx :
  placed_once st → 0 ≤ idx < Z.of_nat (length offsets) →
  ∃ st', add_index offsets st idx = Ok st' ∧ placed_once st' ∧
         ∀ x, x ∈ st'.1 → x ∈ st.1 ∨ x ∈ offsets.
Proof.
  intros Hst Hidx. unfold add_index.
  pose proof (py_index_returns offsets idx Hidx) as Hret.
  destruct (py_index offsets idx) as [offset|] eqn:Hoff; [|discriminate].
  apply py_index_elem in Hoff. simpl. case_bool_decide as Hseen.
  - exists st. auto.
  - eexists. split; [reflexivity|]. split; [by apply placed_once_add|].
    simpl. intros x [?|Hx%list_elem_of_singleton]%elem_of_app; subst; auto.
Qed.

Lemma add_neighbours_spec offsets current_index deltas st :
  offsets ≠ [] → placed_once st →
  ∃ st', add_neighbours offsets current_index (Z.of_nat (length offsets))
           deltas st = Ok st' ∧
         placed_once st' ∧ ∀ x, x ∈ st'.1 → x ∈ st.1 ∨ x ∈ offsets.
Proof.
  intros Hne. revert st.
  assert (0 < Z.of_nat (length offsets)) as Hpos by (destruct offsets; simpl; [done|lia]).
  induction deltas as [|delta deltas IH]; intros st Hst; simpl.
  - exists st. auto.
  - unfold py_mod. destruct (Z.of_nat (length offsets) =? 0) eqn:Hz; [lia|]. simpl.
    destruct (add_index_spec offsets st
                ((current_index + delta) `mod` Z.of_nat (length offsets)) Hst)
      as (st1 & -> & Hst1 & Hin1); [by apply Z.mod_pos_bound|]. simpl.
    destruct (add_index_spec offsets st1
                ((current_index - delta) `mod` Z.of_nat (length offsets)) Hst1)
      as (st2 & -> & Hst2 & Hin2); [by apply Z.mod_pos_bound|]. simpl.
    destruct (IH st2 Hst2) as (st3 & -> & Hst3 & Hin3).
    exists st3. split; [done|]. split; [done|].
    intros x Hx. destruct (Hin3 x Hx) as [Hx2|]; [|auto].
    destruct (Hin2 x Hx2) as [Hx1|]; auto.
Qed.

Lemma add_rest_spec rest st :
  placed_once st →
  placed_once (add_rest rest st) ∧
  ∀ x, x ∈ (add_rest rest st).1 ↔ x ∈ st.1 ∨ x ∈ rest.
Proof.
  revert st. induction rest as [|offset rest IH]; intros st Hst; simpl.
  - split; [done|]. intros x. rewrite elem_of_nil. tauto.
  - case_bool_decide as Hseen.
    + destruct (IH st Hst) as [Hinv Hin]. split; [done|].
      intros x. rewrite Hin, elem_of_cons.
      destruct Hst as [_ Hs]. apply Hs in Hseen.
      split; [tauto|]. intros [?|[->|?]]; auto.
    + destruct (IH _ (placed_once_add st offset Hst Hseen)) as [Hinv Hin].
      split; [done|]. intros x. rewrite Hin. simpl.
      rewrite elem_of_app, list_elem_of_singleton, elem_of_cons. tauto.
Qed.

(** The plan, for any list of distinct offsets and any index in range. *)
Lemma plan_permutation offsets current_index :
  NoDup offsets → 0 ≤ current_index < Z.of_nat (length offsets) →
  ∃ order, plan offsets current_index = Ok order ∧
           order ≡ₚ offsets ∧ NoDup order.
Proof.
  intros Hnd Hci. unfold plan.
  assert (offsets ≠ []) as Hne.
  { intros Hnil. apply (f_equal length) in Hnil. simpl in Hnil. lia. }
  assert (placed_once ([], ∅)) as H0.
  { split; simpl; [apply NoDup_nil_2|]. intros x.
    by rewrite elem_of_empty, elem_of_nil. }
  destruct (add_index_spec offsets _ current_index H0 Hci)
    as (st1 & -> & Hst1 & Hin1).
  cbn -[range add_neighbours add_rest].
  destruct (add_neighbours_spec offsets current_index
              (range 1 (NEIGHBOR_PREFETCH + 1)) st1 Hne Hst1)
    as (st2 & -> & Hst2 & Hin2).
  cbn -[add_rest].
  destruct (add_rest_spec offsets st2 Hst2) as [[Hnd3 _] Hin3].
  eexists. split; [reflexivity|]. split; [|done].
  apply NoDup_Permutation; [done..|].
  intros x. rewrite Hin3. split; [|auto].
  intros [Hx|?]; [|done].
  destruct (Hin2 x Hx) as [Hx1|?]; [|done].
  destruct (Hin1 x Hx1) as [Hx0|?]; [|done].
  simpl in Hx0. by apply elem_of_nil in Hx0.
Qed.

Lemma build_offsets_eq :
  build_offsets = (λ i, 6 * i) <$> seqZ 1 40.
Proof. reflexivity. Qed.

Lemma build_offsets_NoDup : NoDup build_offsets.
Proof.
  rewrite build_offsets_eq. apply NoDup_fmap_2; [|apply NoDup_seqZ].
  intros x y ?. lia.
Qed.

(** C5: the forty offsets are 6, 12, ..., 240 and offset 90 is at index
    14; on a window with these offsets [_build_priority_offsets] returns,
    for every current index in range, a permutation of the offsets with
    each placed once, and with the current index on offset 90 the order it
    returns begins 90, 96, 84, 102, 78. *)
Theorem priority_plan_is_a_permutation (self : t) :
  offsets self = build_offsets →
  0 ≤ current_index self < 40 →
  build_offsets = (λ i, 6 * i) <$> seqZ 1 40 ∧
  build_offsets !! 14%nat = Some 90 ∧
  (take 5 <$> plan build_offsets 14) = Ok [90; 96; 84; 102; 78] ∧
  (∃ order, _build_priority_offsets self = Ok order ∧
            order ≡ₚ build_offsets ∧ NoDup order) ∧
  (current_index self = 14 →
   take 5 <$> _build_priority_offsets self = Ok [90; 96; 84; 102; 78]).
Proof.
  intros Hoff Hci. split; [reflexivity|]. split; [reflexivity|].
  split; [vm_compute; reflexivity|].
  unfold _build_priority_offsets. rewrite Hoff. split.
  - apply plan_permutation; [apply build_offsets_NoDup|].
    rewrite build_offsets_eq, length_fmap, length_seqZ. lia.
  - intros ->. vm_compute. reflexivity.
Qed.

Lemma priority_plan_is_a_permutation_witness :
  offsets Sample.window = build_offsets ∧
  (∃ order, _build_priority_offsets Sample.window = Ok order ∧
            order ≡ₚ build_offsets ∧ NoDup order) ∧
  take 5 <$> _build_priority_offsets Sample.window = Ok [90; 96; 84; 102; 78].
Proof.
  split; [reflexivity|].
  assert (0 ≤ current_index Sample.window < 40) as Hci.
  { change (0 ≤ 14 < 40). lia. }
  destruct (priority_plan_is_a_permutation Sample.window eq_refl Hci)
    as (_ & _ & _ & Horder & Hfront).
  split; [exact Horder|]. exact (Hfront eq_refl).
Defined.

End PlannerFacts.

(** ** The fetch scheduler *)

Module SchedulerFacts.
Import ImageFetcher Batch.

(** The loop of [_start_more]: it sends the head of the queue, counts
    what it sends, never passes the cap, and stops early only at the cap. *)
Lemma start_more_loop_spec self queue in_flight queue' in_flight' sent :
  start_more_loop self queue in_flight = (queue', in_flight', sent) →
  queue = sent.*1 ++ queue' ∧
  in_flight' = in_flight + Z.of_nat (length sent) ∧
  (in_flight ≤ _max_concurrent self → in_flight' ≤ _max_concurrent self) ∧
  (in_flight' < _max_concurrent self → queue' = []) ∧
  ∀ offset request,
    (offset, request) ∈ sent → request = build_request self offset.
Proof.
  revert in_flight queue' in_flight' sent.
  induction queue as [|offset rest IH]; intros n queue' n' sent; simpl.
  - intros [= <- <- <-]. simpl. repeat split; try done; try lia.
    intros ?? []%elem_of_nil.
  - destruct (n <? _max_concurrent self) eqn:Hcap.
    + destruct (start_more_loop self rest (n + 1)) as [[q m] out] eqn:Hloop.
      intros [= <- <- <-].
      destruct (IH _ _ _ _ Hloop) as (Hq & Hm & Hle & Hstop & Hreq).
      simpl. repeat split.
      * by rewrite Hq at 1.
      * lia.
      * lia.
      * done.
      * intros o r [[= -> ->]|Hin]%elem_of_cons; [done|by apply Hreq].
    + intros [= <- <- <-]. simpl. repeat split; try done; try lia.
      intros ?? []%elem_of_nil.
Qed.

Lemma start_more_spec self self' sent :
  _start_more self = (self', sent) →
  self' = ImageFetcher.mk (base_url self) (_queue self')
            (_headers_by_offset self)
            (_in_flight self + Z.of_nat (length sent)) (_done self)
            (_total self) (_max_concurrent self) (_force_network self) ∧
  _queue self = sent.*1 ++ _queue self' ∧
  (_in_flight self ≤ _max_concurrent self →
   _in_flight self' ≤ _max_concurrent self) ∧
  (_in_flight self' < _max_concurrent self → _queue self' = []) ∧
  ∀ offset request,
    (offset, request) ∈ sent → request = build_request self offset.
Proof.
  unfold _start_more.
  destruct (start_more_loop self (_queue self) (_in_flight self))
    as [[q m] out] eqn:Hloop.
  intros [= <- <-]. simpl.
  destruct (start_more_loop_spec _ _ _ _ _ _ Hloop) as (Hq & -> & Hle & Hstop & Hreq).
  done.
Qed.

(** The request built for a key does not depend on the counters or the
    queue. *)
Lemma build_request_ext self self' offset :
  base_url self' = base_url self →
  _headers_by_offset self' = _headers_by_offset self →
  _force_network self' = _force_network self →
  build_request self' offset = build_request self offset.
Proof. unfold build_request. by intros -> -> ->. Qed.

Lemma progress_signals_step done total :
  0 ≤ done → done ≠ total →
  progress_signals (done + 1) total
  = progress_signals done total ++
    progressChanged (done + 1) total ::
    (if bool_decide (done + 1 = total) then [batchFinished] else []).
Proof.
  intros Hdone Hne. unfold progress_signals.
  rewrite (bool_decide_eq_false_2 (done = total)) by done.
  rewrite seqZ_app by lia. rewrite fmap_app, app_nil_r, <- app_assoc.
  f_equal. rewrite seqZ_cons by lia. rewrite seqZ_nil by lia.
  simpl. by rewrite Z.add_comm.
Qed.

Section Network.

Variable loadFromData : list byte → option QPixmap.

Lemma classify_keyed reply :
  key_of (classify loadFromData reply) = Some (property_offset reply).
Proof.
  unfold classify. case_bool_decide; [done|].
  destruct (error (answer reply)); [|done].
  by destruct (loadFromData _).
Qed.

Lemma keyless_reply emitted reply rest :
  keyless (emitted ++ classify loadFromData reply :: rest)
  = keyless emitted ++ keyless rest.
Proof.
  unfold keyless. rewrite List.filter_app. f_equal. simpl.
  pose proof (classify_keyed reply) as H.
  by destruct (classify loadFromData reply).
Qed.

Lemma start_consistent self offsets headers_by_offset force_network :
  1 ≤ _max_concurrent self →
  let s := start self offsets headers_by_offset force_network in
  consistent s ∧
  _total (fetcher s) = Z.of_nat (length offsets) ∧
  _done (fetcher s) = 0.
Proof.
  intros Hcap. unfold start, fetch_offsets. cbn [_total].
  destruct (Z.of_nat (length offsets) =? 0) eqn:Hempty.
  - assert (offsets = []) as -> by (destruct offsets; [done|simpl in *; lia]).
    cbn. split; [|done]. split; cbn; try done; lia.
  - destruct (_start_more _) as [self' sent] eqn:Hmore.
    destruct (start_more_spec _ _ _ Hmore) as (-> & Hq & Hle & Hstop & Hreq).
    cbn in *. split; [|done].
    split; cbn; try done; try lia.
    + apply (f_equal length) in Hq.
      rewrite length_app, length_fmap in Hq. lia.
    + unfold progress_signals.
      by rewrite bool_decide_eq_false_2 by lia.
Qed.

Lemma start_built self offsets headers_by_offset force_network :
  let s := start self offsets headers_by_offset force_network in
  built_by_scheduler s ∧
  _force_network (fetcher s) = force_network ∧
  _headers_by_offset (fetcher s) = default ∅ headers_by_offset.
Proof.
  unfold start, fetch_offsets. cbn [_total].
  destruct (Z.of_nat (length offsets) =? 0).
  - cbn. split; [|done]. by intros ?? []%elem_of_nil.
  - destruct (_start_more _) as [self' sent] eqn:Hmore.
    destruct (start_more_spec _ _ _ Hmore) as (-> & _ & _ & _ & Hreq).
    cbn in *. split; [|done].
    intros offset request Hin. cbn in Hin. rewrite (Hreq _ _ Hin).
    by apply build_request_ext.
Qed.

(** One finished request: the signals it emits and the count. *)
Lemma finish_signals s i answer s' :
  finish loadFromData s i answer = Some s' →
  _done (fetcher s') = _done (fetcher s) + 1 ∧
  _total (fetcher s') = _total (fetcher s) ∧
  _max_concurrent (fetcher s') = _max_concurrent (fetcher s) ∧
  ∃ first,
    is_Some (key_of first) ∧
    emitted s' =
      emitted s ++ first ::
      progressChanged (_done (fetcher s) + 1) (_total (fetcher s)) ::
      (if bool_decide (_done (fetcher s) + 1 = _total (fetcher s))
       then [batchFinished] else []).
Proof.
  unfold finish.
  destruct (in_network s !! i) as [[offset request]|]; [|discriminate].
  unfold _on_finished. cbn [_done _total].
  set (reply := {| property_offset := offset |}).
  destruct (_done (fetcher s) + 1 =? _total (fetcher s)) eqn:Hlast.
  - intros [= <-]. cbn. repeat split.
    exists (classify loadFromData reply).
    rewrite classify_keyed. split; [by eexists|].
    by rewrite bool_decide_eq_true_2 by lia.
  - destruct (_start_more _) as [self' sent] eqn:Hmore.
    destruct (start_more_spec _ _ _ Hmore) as (-> & _).
    intros [= <-]. cbn. repeat split.
    exists (classify loadFromData reply).
    rewrite classify_keyed. split; [by eexists|].
    by rewrite bool_decide_eq_false_2 by lia.
Qed.

Lemma finish_consistent s i answer s' :
  consistent s → finish loadFromData s i answer = Some s' → consistent s'.
Proof.
  intros [Hcap Hcount Hle Hwait Hkeys Hdone Hsig] Hfin.
  destruct (finish_signals _ _ _ _ Hfin) as (Hd & Ht & Hc & first & Hkey & Hem).
  assert (keyless (emitted s')
          = progress_signals (_done (fetcher s')) (_total (fetcher s'))) as Hsig'.
  { rewrite Hem, Hd, Ht. unfold keyless in *.
    rewrite List.filter_app, Hsig. destruct Hkey as [k Hk].
    assert (_done (fetcher s) ≠ _total (fetcher s)) as Hne.
    { revert Hfin. unfold finish.
      destruct (in_network s !! i) as [p|] eqn:Hi; [|discriminate].
      apply lookup_lt_Some in Hi. lia. }
    rewrite progress_signals_step by done.
    f_equal. destruct first; try discriminate; cbn; by case_bool_decide. }
  revert Hfin. unfold finish.
  destruct (in_network s !! i) as [[offset request]|] eqn:Hi; [|discriminate].
  assert (is_Some (in_network s !! i)) as Hsome by eauto.
  pose proof (length_delete (in_network s) i Hsome) as Hdel.
  pose proof (lookup_lt_Some _ _ _ Hi) as Hlt.
  unfold _on_finished. cbn [_done _total].
  set (reply := {| property_offset := offset |}).
  destruct (_done (fetcher s) + 1 =? _total (fetcher s)) eqn:Hlast.
  - intros [= <-]. cbn in *. split; cbn; try done; try lia.
    + rewrite length_app, Hdel. simpl. lia.
    + intros _. destruct (_queue (fetcher s)); [done|simpl in *; lia].
  - destruct (_start_more _) as [self' sent] eqn:Hmore.
    destruct (start_more_spec _ _ _ Hmore) as (-> & Hq & Hle' & Hstop & Hreq).
    intros [= <-]. cbn in *. split; cbn; try done; try lia.
    + rewrite length_app, Hdel. lia.
    + rewrite Hq, length_app, length_fmap in Hkeys. lia.
Qed.

Lemma finish_built s i answer s' :
  built_by_scheduler s → finish loadFromData s i answer = Some s' →
  built_by_scheduler s' ∧
  _force_network (fetcher s') = _force_network (fetcher s) ∧
  _headers_by_offset (fetcher s') = _headers_by_offset (fetcher s).
Proof.
  intros Hb. unfold finish.
  destruct (in_network s !! i) as [[offset request]|]; [|discriminate].
  unfold _on_finished. cbn [_done _total].
  destruct (_ =? _).
  - intros [= <-]. cbn. split; [|done].
    intros o r Hin. rewrite app_nil_r in Hin.
    apply list_elem_of_delete_inv in Hin.
    rewrite (Hb _ _ Hin). by apply build_request_ext.
  - destruct (_start_more _) as [self' sent] eqn:Hmore.
    destruct (start_more_spec _ _ _ Hmore) as (-> & _ & _ & _ & Hreq).
    intros [= <-]. cbn in *. split; [|done].
    intros o r [Hin|Hin]%elem_of_app.
    + apply list_elem_of_delete_inv in Hin.
      rewrite (Hb _ _ Hin). by apply build_request_ext.
    + rewrite (Hreq _ _ Hin). by apply build_request_ext.
Qed.

Lemma run_consistent steps s s' :
  consistent s → run loadFromData s steps = Some s' →
  consistent s' ∧
  _done (fetcher s') = _done (fetcher s) + Z.of_nat (length steps) ∧
  _total (fetcher s') = _total (fetcher s).
Proof.
  revert s. induction steps as [|[i answer] steps IH]; intros s Hs; simpl.
  - intros [= <-]. split; [done|]. split; [lia|done].
  - destruct (finish loadFromData s i answer) as [s1|] eqn:Hfin; [|discriminate].
    pose proof (finish_consistent _ _ _ _ Hs Hfin) as Hs1.
    destruct (finish_signals _ _ _ _ Hfin) as (Hd1 & Ht1 & _).
    intros Hrun. destruct (IH _ Hs1 Hrun) as (Hs' & Hd' & Ht').
    split; [done|]. split; [lia|congruence].
Qed.

Lemma run_built steps s s' :
  built_by_scheduler s → run loadFromData s steps = Some s' →
  built_by_scheduler s' ∧
  _force_network (fetcher s') = _force_network (fetcher s) ∧
  _headers_by_offset (fetcher s') = _headers_by_offset (fetcher s).
Proof.
  revert s. induction steps as [|[i answer] steps IH]; intros s Hs; simpl.
  - by intros [= <-].
  - destruct (finish loadFromData s i answer) as [s1|] eqn:Hfin; [|discriminate].
    destruct (finish_built _ _ _ _ Hs Hfin) as (Hs1 & Hf1 & Hh1).
    intros Hrun. destruct (IH _ Hs1 Hrun) as (Hs' & Hf' & Hh').
    split; [done|]. split; congruence.
Qed.

Lemma batchFinished_among_keyless signals :
  List.filter is_batchFinished signals
  = List.filter is_batchFinished (keyless signals).
Proof.
  induction signals as [|signal signals IH]; [done|].
  destruct signal; simpl; by rewrite IH.
Qed.

Lemma batchFinished_in_progress_signals done total :
  List.filter is_batchFinished (progress_signals done total)
  = if bool_decide (done = total) then [batchFinished] else [].
Proof.
  unfold progress_signals. rewrite List.filter_app.
  assert (∀ l : list Z,
            List.filter is_batchFinished
              ((λ k, progressChanged k total) <$> l) = []) as ->.
  { induction l; simpl; auto. }
  by case_bool_decide.
Qed.

(** C1: in a batch of at least one key, after any number of finished
    requests the completed counter is that number, the keyless signals
    are one progress signal per finished request, counting up by one,
    followed by [batchFinished] exactly when the counter has reached the
    total; so [batchFinished] is emitted once, by the request that makes
    the counter equal the total, a request is still out as long as the
    counter is below the total, and none is out afterwards. *)
Theorem batch_counts_and_finishes_once
    (self : ImageFetcher.t) (offsets : list Z)
    (headers_by_offset : option (gmap Z (gmap string string)))
    (force_network : bool) (steps : list (nat * Answer)) (s : Batch.t) :
  offsets ≠ [] →
  1 ≤ _max_concurrent self →
  run loadFromData (start self offsets headers_by_offset force_network) steps
    = Some s →
  _total (fetcher s) = Z.of_nat (length offsets) ∧
  _done (fetcher s) = Z.of_nat (length steps) ∧
  keyless (emitted s)
    = progress_signals (Z.of_nat (length steps)) (Z.of_nat (length offsets)) ∧
  List.filter is_batchFinished (emitted s)
    = (if bool_decide (length steps = length offsets)
       then [batchFinished] else []) ∧
  (length steps ≤ length offsets)%nat ∧
  ((length steps < length offsets)%nat → in_network s ≠ []) ∧
  (length steps = length offsets →
   in_network s = [] ∧ _queue (fetcher s) = []) ∧
  ∀ i answer s',
    finish loadFromData s i answer = Some s' →
    _done (fetcher s') = _done (fetcher s) + 1 ∧
    ∃ first,
      is_Some (key_of first) ∧
      emitted s' =
        emitted s ++ first ::
        progressChanged (_done (fetcher s) + 1) (_total (fetcher s)) ::
        (if bool_decide (_done (fetcher s) + 1 = _total (fetcher s))
         then [batchFinished] else []).
Proof.
  intros Hne Hcap Hrun.
  destruct (start_consistent self offsets headers_by_offset force_network Hcap)
    as (Hs0 & Ht0 & Hd0).
  destruct (run_consistent _ _ _ Hs0 Hrun) as (Hs & Hd & Ht).
  rewrite Hd0 in Hd. rewrite Ht0 in Ht. simpl in Hd.
  destruct Hs as [Hpos Hcount Hle Hwait Hkeys Hdone Hsig].
  rewrite Hd, Ht in Hsig, Hkeys.
  split; [done|]. split; [done|]. split; [done|].
  split.
  { rewrite batchFinished_among_keyless, Hsig,
      batchFinished_in_progress_signals.
    repeat case_bool_decide; try done; lia. }
  split; [lia|]. split.
  { intros Hlt Hnone. rewrite Hnone in Hcount. simpl in Hcount.
    rewrite Hwait in Hkeys by lia. simpl in Hkeys. lia. }
  split.
  { intros Heq. split.
    - destruct (in_network s); [done|simpl in *; lia].
    - destruct (_queue (fetcher s)); [done|simpl in *; lia]. }
  intros i answer s' Hfin.
  destruct (finish_signals _ _ _ _ Hfin) as (Hd' & _ & _ & Hfirst).
  by split.
Qed.

Lemma finish_capped s i answer s' :
  1 ≤ _max_concurrent (fetcher s) →
  _in_flight (fetcher s) = Z.of_nat (length (in_network s)) →
  _in_flight (fetcher s) ≤ _max_concurrent (fetcher s) →
  finish loadFromData s i answer = Some s' →
  1 ≤ _max_concurrent (fetcher s') ∧
  _in_flight (fetcher s') = Z.of_nat (length (in_network s')) ∧
  _in_flight (fetcher s') ≤ _max_concurrent (fetcher s').
Proof.
  intros Hcap Hcount Hle. unfold finish.
  destruct (in_network s !! i) as [[offset request]|] eqn:Hi; [|discriminate].
  assert (is_Some (in_network s !! i)) as Hsome by eauto.
  pose proof (length_delete (in_network s) i Hsome) as Hdel.
  pose proof (lookup_lt_Some _ _ _ Hi) as Hlt.
  unfold _on_finished. cbn [_done _total].
  destruct (_ =? _).
  - intros [= <-]. cbn. rewrite length_app, Hdel. simpl. lia.
  - destruct (_start_more _) as [self' sent] eqn:Hmore.
    destruct (start_more_spec _ _ _ Hmore) as (-> & _ & Hle' & _).
    intros [= <-]. cbn in *. rewrite length_app, Hdel. lia.
Qed.

Lemma reachable_capped s :
  reachable loadFromData s →
  1 ≤ _max_concurrent (fetcher s) ∧
  _in_flight (fetcher s) = Z.of_nat (length (in_network s)) ∧
  _in_flight (fetcher s) ≤ _max_concurrent (fetcher s).
Proof.
  induction 1 as [base|s value Hs (Hcap & Hcount & Hle) Hidle
                 |s offsets headers force Hs (Hcap & Hcount & Hle) Hidle
                 |s i answer s' Hs (Hcap & Hcount & Hle) Hfin].
  - cbn. unfold DEFAULT_MAX_CONCURRENT. lia.
  - unfold idle in Hidle. rewrite Hidle in Hcount. cbn in *.
    rewrite Hidle. simpl. lia.
  - destruct (start_consistent (fetcher s) offsets headers force Hcap)
      as ([] & _). done.
  - by eapply finish_capped.
Qed.

(** C2: in every state of a scheduler whose cap is changed only
    between batches, the in-flight count is the number of requests out
    and is at most the cap, and the cap is at least 1;
    [set_max_concurrent] sets the cap to the larger of 1 and its
    argument. *)
Theorem in_flight_never_exceeds_cap (s : Batch.t) :
  reachable loadFromData s →
  1 ≤ _max_concurrent (fetcher s) ∧
  0 ≤ _in_flight (fetcher s) ≤ _max_concurrent (fetcher s) ∧
  _in_flight (fetcher s) = Z.of_nat (length (in_network s)) ∧
  ∀ self value,
    _max_concurrent (ImageFetcher.set_max_concurrent self value)
      = Z.max 1 value ∧
    1 ≤ _max_concurrent (ImageFetcher.set_max_concurrent self value).
Proof.
  intros (Hcap & Hcount & Hle)%reachable_capped.
  repeat split; try done; try lia. simpl. lia.
Qed.

(** The headers and the cache control of the request built for a key. *)
Lemma build_request_spec self offset :
  let headers := default ∅ (_headers_by_offset self !! offset) in
  let request := build_request self offset in
  CacheLoadControlAttribute request
    = (if _force_network self then AlwaysNetwork else PreferNetwork) ∧
  rawHeaders request !! "If-None-Match"
    = (if truthy (headers !! "etag") then headers !! "etag" else None) ∧
  rawHeaders request !! "If-Modified-Since"
    = (if truthy (headers !! "last_modified")
       then headers !! "last_modified" else None) ∧
  ∀ name, name ≠ "If-None-Match"%string → name ≠ "If-Modified-Since"%string →
          rawHeaders request !! name = None.
Proof.
  unfold build_request. cbn zeta.
  set (headers := default ∅ (_headers_by_offset self !! offset)).
  destruct (headers !! "etag") as [etag|];
    destruct (headers !! "last_modified") as [last_modified|];
    destruct (_force_network self); cbn;
    repeat case_match; cbn; repeat split; intros;
    by simplify_map_eq.
Qed.

(** C3, as amended: in a batch started with [force_network] true every
    request the scheduler builds has its cache control set to
    [AlwaysNetwork]; it carries If-None-Match exactly when the mapping
    has a non-empty etag for its key, If-Modified-Since exactly when the
    mapping has a non-empty last_modified, and no other header. *)
Theorem forced_batch_requests
    (self : ImageFetcher.t) (offsets : list Z)
    (headers_by_offset : option (gmap Z (gmap string string)))
    (steps : list (nat * Answer)) (s : Batch.t)
    (offset : Z) (request : QNetworkRequest) :
  run loadFromData (start self offsets headers_by_offset true) steps = Some s →
  (offset, request) ∈ in_network s →
  let headers := default ∅ (default ∅ headers_by_offset !! offset) in
  CacheLoadControlAttribute request = AlwaysNetwork ∧
  rawHeaders request !! "If-None-Match"
    = (if truthy (headers !! "etag") then headers !! "etag" else None) ∧
  rawHeaders request !! "If-Modified-Since"
    = (if truthy (headers !! "last_modified")
       then headers !! "last_modified" else None) ∧
  ∀ name, name ≠ "If-None-Match"%string → name ≠ "If-Modified-Since"%string →
          rawHeaders request !! name = None.
Proof.
  intros Hrun Hin.
  destruct (start_built self offsets headers_by_offset true) as (Hb0 & Hf0 & Hh0).
  destruct (run_built _ _ _ Hb0 Hrun) as (Hb & Hf & Hh).
  rewrite Hf0 in Hf. rewrite Hh0 in Hh.
  rewrite (Hb _ _ Hin).
  pose proof (build_request_spec (fetcher s) offset) as Hspec.
  cbn zeta in Hspec. by rewrite Hf, Hh in Hspec.
Qed.

(** C9: [fetch_offsets] on no keys emits [batchFinished] and nothing
    else, and sends no request. *)
Theorem empty_batch_finishes_at_once
    (self : ImageFetcher.t)
    (headers_by_offset : option (gmap Z (gmap string string)))
    (force_network : bool) :
  fetch_offsets self [] headers_by_offset force_network
  = (ImageFetcher.mk (base_url self) [] (default ∅ headers_by_offset) 0 0 0
       (_max_concurrent self) force_network,
     [batchFinished], []).
Proof. reflexivity. Qed.

End Network.

Lemma batch_counts_and_finishes_once_witness :
  ∃ s,
    run Sample.no_image
      (start (ImageFetcher.__init__ BASE_URL) [6; 12] None false)
      [(0%nat, Sample.not_modified); (0%nat, Sample.not_modified)] = Some s ∧
    _done (fetcher s) = 2 ∧
    List.filter is_batchFinished (emitted s) = [batchFinished].
Proof.
  eexists. split; [reflexivity|].
  assert (1 ≤ _max_concurrent (ImageFetcher.__init__ BASE_URL)) as Hcap.
  { change (1 ≤ 4). lia. }
  assert ([6; 12] ≠ ([] : list Z)) as Hne by discriminate.
  destruct (batch_counts_and_finishes_once Sample.no_image
              (ImageFetcher.__init__ BASE_URL) [6; 12] None false
              [(0%nat, Sample.not_modified); (0%nat, Sample.not_modified)]
              _ Hne Hcap eq_refl) as (_ & Hdone & _ & Hfinished & _).
  split; [exact Hdone|exact Hfinished].
Defined.

Lemma in_flight_never_exceeds_cap_witness :
  let s := start (fetcher (created BASE_URL)) [6; 12; 18; 24; 30] None false in
  length (in_network s) = 4%nat ∧
  0 ≤ _in_flight (fetcher s) ≤ _max_concurrent (fetcher s).
Proof.
  cbn zeta. split; [reflexivity|].
  exact (proj1 (proj2
           (in_flight_never_exceeds_cap Sample.no_image _
              (reach_fetch_offsets Sample.no_image (created BASE_URL)
                 [6; 12; 18; 24; 30] None false
                 (reach_created Sample.no_image BASE_URL) eq_refl)))).
Defined.

Lemma forced_batch_requests_witness :
  let s := start (ImageFetcher.__init__ BASE_URL) [6; 12]
             (Some Sample.etag_for_6) true in
  ∃ request,
    in_network s !! 1%nat = Some (12, request) ∧
    CacheLoadControlAttribute request = AlwaysNetwork ∧
    rawHeaders request !! "If-None-Match" = None.
Proof.
  intros s.
  destruct (in_network s !! 1%nat) as [[offset request]|] eqn:Hsent;
    [|discriminate].
  assert (offset = 12) as -> by (injection Hsent as <- _; reflexivity).
  exists request. split; [reflexivity|].
  destruct (forced_batch_requests Sample.no_image
              (ImageFetcher.__init__ BASE_URL) [6; 12]
              (Some Sample.etag_for_6) [] s 12 request eq_refl
              (list_elem_of_lookup_2 (in_network s) 1%nat (12, request) Hsent))
    as (Hcontrol & Hetag & _).
  split; [exact Hcontrol|exact Hetag].
Defined.

(** C3, as stated, fails: a batch started with [force_network] true and
    an etag in the mapping for offset 6 sends If-None-Match with it. *)
Lemma forced_batch_sends_if_none_match :
  let s := start (ImageFetcher.__init__ BASE_URL) [6]
             (Some Sample.etag_for_6) true in
  _force_network (fetcher s) = true ∧
  ∃ request,
    in_network s = [(6, request)] ∧
    CacheLoadControlAttribute request = AlwaysNetwork ∧
    rawHeaders request !! "If-None-Match" = Some "abc"%string.
Proof.
  cbn zeta. split; [reflexivity|].
  eexists. split; [reflexivity|]. split; reflexivity.
Qed.

End SchedulerFacts.

(** ** The slots of the window *)

Module WindowFacts.
Import MainWindow.

Section Slots.

Variable loadFromData : list byte → option QPixmap.
Variable toPNG : QPixmap → list byte.

(** C6: a reply with status 304 makes the scheduler emit, of the
    signals that carry a key, only [notModified] for that key; the
    slots run by the signals of that call leave the frame table, the
    files of the content cache and the table of the validator store as
    they were.  (When the reply is the last of its batch, the slot of
    [batchFinished] saves the store: the metadata file is written, with
    the unchanged table, if an earlier reply left the store dirty.) *)
Theorem not_modified_writes_nothing
    (self : ImageFetcher.t) (reply : QNetworkReply) (window : MainWindow.t) :
  HttpStatusCodeAttribute (answer reply) = Some 304 →
  ∃ self' signals sent window',
    ImageFetcher._on_finished loadFromData self reply = (self', signals, sent) ∧
    signals =
      notModified (property_offset reply) ::
      progressChanged (ImageFetcher._done self + 1) (ImageFetcher._total self) ::
      (if bool_decide (ImageFetcher._done self + 1 = ImageFetcher._total self)
       then [batchFinished] else []) ∧
    omap Batch.key_of signals = [property_offset reply] ∧
    deliver toPNG window signals = Ok window' ∧
    frames window' = frames window ∧
    cache window' = cache window ∧
    MetadataCache.data (metadata window') = MetadataCache.data (metadata window) ∧
    metadata_file window' =
      (if bool_decide (ImageFetcher._done self + 1 = ImageFetcher._total self)
          && MetadataCache._dirty (metadata window)
       then Some (json_dumps (MetadataCache.data (metadata window)))
       else metadata_file window) ∧
    _progress_unchanged window' = _progress_unchanged window + 1.
Proof.
  intros Hstatus. unfold ImageFetcher._on_finished, ImageFetcher.classify.
  rewrite Hstatus, bool_decide_eq_true_2 by done. cbn.
  destruct (ImageFetcher._done self + 1 =? ImageFetcher._total self) eqn:Hlast.
  - rewrite bool_decide_eq_true_2 by lia.
    destruct (MetadataCache._dirty (metadata window)) eqn:Hdirty;
      eexists _, _, _, _;
      (split; [reflexivity|]); (split; [reflexivity|]);
      (split; [reflexivity|]);
      cbn; unfold _on_batch_finished, MetadataCache.save; cbn;
      rewrite Hdirty; cbn; (split; [reflexivity|done]).
  - rewrite bool_decide_eq_false_2 by lia.
    destruct (ImageFetcher._start_more _) as [self' sent].
    eexists _, _, _, _. split; [reflexivity|]. split; [reflexivity|].
    split; [reflexivity|]. cbn. split; [reflexivity|done].
Qed.

End Slots.

Lemma not_modified_writes_nothing_witness :
  HttpStatusCodeAttribute (answer Sample.not_modified_reply) = Some 304 ∧
  ∃ self' signals sent window',
    ImageFetcher._on_finished Sample.no_image
      (ImageFetcher.__init__ BASE_URL) Sample.not_modified_reply
      = (self', signals, sent) ∧
    deliver Sample.pixels_only Sample.window signals = Ok window' ∧
    frames window' = frames Sample.window ∧
    cache window' = cache Sample.window.
Proof.
  split; [reflexivity|].
  destruct (not_modified_writes_nothing Sample.no_image Sample.pixels_only
              (ImageFetcher.__init__ BASE_URL) Sample.not_modified_reply
              Sample.window eq_refl)
    as (self' & signals & sent & window' & Hrun & _ & _ & Hdeliver
        & Hframes & Hcache & _).
  exists self', signals, sent, window'. by repeat split.
Defined.

End WindowFacts.


(** * Further properties *)

(** ** The validator store: lookups after updates *)

Module StoreExtras.
Import MetadataCache MetadataCacheFacts.

(** What [headers_for] reads off the record of a key. *)
Lemma headers_for_record d dirty key r :
  default (JDict ∅) (d !! pretty key) = JDict r →
  ∃ h, headers_for (mk (JDict d) dirty) key = Ok h ∧
       h !! "etag" = r !! "etag" ∧
       h !! "last_modified" = r !! "last_modified" ∧
       ∀ name, name ≠ "etag"%string → name ≠ "last_modified"%string →
               h !! name = None.
Proof.
  intros Hr. unfold headers_for. simpl. rewrite Hr. simpl.
  destruct (r !! "etag") as [e|] eqn:He;
    destruct (r !! "last_modified") as [l|] eqn:Hl; simpl;
    repeat (case_bool_decide as Hdec; simpl;
            try (exfalso; apply Hdec; eauto; done);
            try (destruct Hdec as [? [=]]));
    eexists; (split; [reflexivity|]);
    repeat split; intros; by simplify_map_eq.
Qed.

(** The headers of a key after [update] for it. *)
Lemma update_headers self offset etag last_modified :
  is_table (data self) = true →
  ∃ h self' h',
    headers_for self offset = Ok h ∧
    update self offset etag last_modified = Ok self' ∧
    headers_for self' offset = Ok h' ∧
    h' !! "etag" = (if truthy etag then JStr <$> etag else h !! "etag") ∧
    h' !! "last_modified"
      = (if truthy last_modified then JStr <$> last_modified
         else h !! "last_modified").
Proof.
  destruct self as [v dirty]. simpl. intros Ht.
  destruct v as [| | | | |d]; try discriminate.
  destruct (entry_of_table d (pretty offset) Ht) as [r Hr].
  destruct (headers_for_record d dirty offset r Hr) as (h & Hh & He & Hl & _).
  set (r1 := if truthy etag
             then <["etag" := JStr (default EmptyString etag)]> r else r).
  set (r2 := if truthy last_modified
             then <["last_modified" := JStr (default EmptyString last_modified)]> r1
             else r1).
  assert (update (mk (JDict d) dirty) offset etag last_modified
          = Ok (mk (JDict (<[pretty offset := JDict r2]> d)) true)) as Hup.
  { unfold update, r2, r1. simpl. rewrite Hr.
    by destruct (truthy etag), (truthy last_modified). }
  destruct (headers_for_record (<[pretty offset := JDict r2]> d) true offset r2)
    as (h' & Hh' & He' & Hl' & _); [by rewrite lookup_insert_eq|].
  exists h, (mk (JDict (<[pretty offset := JDict r2]> d)) true), h'.
  split; [done|]. split; [done|]. split; [done|].
  rewrite He', Hl', He, Hl. unfold r2, r1.
  destruct etag as [e|], last_modified as [l|]; simpl;
    repeat (destruct (negb _); simpl); by simplify_map_eq.
Qed.

(** [headers_for] reads the table only. *)
Lemma headers_for_data self self' offset :
  data self' = data self → headers_for self' offset = headers_for self offset.
Proof. unfold headers_for. by intros ->. Qed.

(** X1: on a table of records, [update] followed by [headers_for] for the
    same key returns the etag and the last_modified just given, where they
    are non-empty, and keeps the value the key had for a field not given. *)
Theorem update_then_headers_for
    (self : t) (offset : Z) (etag last_modified : option string) :
  is_table (data self) = true →
  ∃ h self' h',
    headers_for self offset = Ok h ∧
    update self offset etag last_modified = Ok self' ∧
    headers_for self' offset = Ok h' ∧
    h' !! "etag" = (if truthy etag then JStr <$> etag else h !! "etag") ∧
    h' !! "last_modified"
      = (if truthy last_modified then JStr <$> last_modified
         else h !! "last_modified").
Proof. apply update_headers. Qed.

Lemma update_then_headers_for_witness :
  ∃ self',
    update (__init__ None) 6 (Some "abc") None = Ok self' ∧
    headers_for self' 6 = Ok {[ "etag" := JStr "abc" ]}.
Proof.
  destruct (update_then_headers_for (__init__ None) 6 (Some "abc") None
              is_table_empty)
    as (h & self' & h' & _ & Hup & _).
  exists self'. split; [exact Hup|].
  injection Hup as <-. reflexivity.
Defined.

(** X2: [update] for one key leaves what [headers_for] returns for every
    other key as it was. *)
Theorem update_leaves_other_keys
    (self : t) (offset other : Z) (etag last_modified : option string) (self' : t) :
  update self offset etag last_modified = Ok self' →
  other ≠ offset →
  headers_for self' other = headers_for self other.
Proof.
  intros Hup Hne. revert Hup. unfold update.
  destruct (data self) as [| | | | |d] eqn:Hdata; try discriminate.
  destruct (default (JDict ∅) (d !! pretty offset)) as [| | | | |r];
    destruct (truthy etag), (truthy last_modified); simpl;
    try discriminate; intros [= <-];
    unfold headers_for; simpl; rewrite Hdata; simpl;
    rewrite lookup_insert_ne; try done;
    by intros ?%(inj pretty).
Qed.

Lemma update_leaves_other_keys_witness :
  headers_for (mk (JDict {[ "6" := JDict {[ "etag" := JStr "abc" ]} ]}) true) 12
  = headers_for (__init__ None) 12.
Proof.
  apply (update_leaves_other_keys (__init__ None) 6 12 (Some "abc") None);
    [reflexivity|lia].
Defined.

(** X3: whenever [headers_for] returns, the mapping has no key besides
    etag and last_modified; on a store that is a dict it returns the empty
    mapping for a key that has no record. *)
Theorem headers_for_only_validators (self : t) (offset : Z) (h : gmap string json) :
  headers_for self offset = Ok h →
  (∀ name, name ≠ "etag"%string → name ≠ "last_modified"%string →
           h !! name = None) ∧
  (∀ d, data self = JDict d → d !! pretty offset = None → h = ∅).
Proof.
  intros Hh. split.
  - revert Hh. unfold headers_for.
    destruct (data self) as [| | | | |d]; try discriminate. simpl.
    destruct (default (JDict ∅) (d !! pretty offset)) as [| | |s|l|r] eqn:Hr;
      try discriminate; simpl.
    + destruct (str_contains "etag" s); simpl; [discriminate|].
      destruct (str_contains "last_modified" s); simpl; [discriminate|].
      cbv [mret result_ret]. intros Heq name _ _.
      inversion Heq. apply lookup_empty.
    + repeat (destruct (existsb _ l); simpl); try discriminate.
      cbv [mret result_ret]. intros Heq name _ _.
      inversion Heq. apply lookup_empty.
    + destruct (headers_for_record d false offset r Hr) as (h0 & Hh0 & _ & _ & Hno).
      unfold headers_for in Hh0. simpl in Hh0. rewrite Hr in Hh0. simpl in Hh0.
      rewrite Hh0. by intros [= <-].
  - intros d Hdata Hnone. revert Hh. unfold headers_for.
    rewrite Hdata. simpl. rewrite Hnone. simpl.
    cbv [mret result_ret]. intros Heq. by inversion Heq.
Qed.

Lemma headers_for_only_validators_witness :
  headers_for
    (mk (JDict {[ "6" := JDict {[ "etag" := JStr "abc"; "size" := JNum 7 ]} ]})
       false) 6
  = Ok {[ "etag" := JStr "abc" ]} ∧
  ({[ "etag" := JStr "abc" ]} : gmap string json) !! "size" = None.
Proof.
  assert (headers_for
            (mk (JDict {[ "6" := JDict {[ "etag" := JStr "abc";
                                          "size" := JNum 7 ]} ]}) false) 6
          = Ok {[ "etag" := JStr "abc" ]}) as Hh by reflexivity.
  split; [exact Hh|].
  apply (proj1 (headers_for_only_validators _ _ _ Hh)); discriminate.
Defined.

(** X4: [update] repeated with the same arguments changes nothing more. *)
Theorem update_twice_is_update_once
    (self : t) (offset : Z) (etag last_modified : option string) (self' : t) :
  update self offset etag last_modified = Ok self' →
  update self' offset etag last_modified = Ok self'.
Proof.
  unfold update.
  destruct (data self) as [| | | | |d] eqn:Hdata; try discriminate.
  destruct (default (JDict ∅) (d !! pretty offset)) as [| | | | |r];
    destruct (truthy etag) eqn:He, (truthy last_modified) eqn:Hl; simpl;
    try discriminate; intros [= <-]; simpl;
    rewrite lookup_insert_eq; simpl; rewrite ?He, ?Hl; simpl;
    by rewrite ?insert_insert_eq, ?(insert_insert_ne _ "etag" "last_modified"),
         ?insert_insert_eq.
Qed.

Lemma update_twice_is_update_once_witness :
  ∃ self',
    update (__init__ None) 6 (Some "abc") (Some "Mon") = Ok self' ∧
    update self' 6 (Some "abc") (Some "Mon") = Ok self'.
Proof.
  eexists. split; [reflexivity|].
  apply (update_twice_is_update_once (__init__ None) 6 (Some "abc") (Some "Mon")).
  reflexivity.
Defined.

End StoreExtras.

(** ** The fetch scheduler: admission order and completion *)

Module SchedulerExtras.
Import ImageFetcher Batch SchedulerFacts.

(** The loop of [_start_more] sends the first keys of the queue, as many
    as the cap leaves room for. *)
Lemma start_more_loop_take self queue in_flight queue' in_flight' sent :
  start_more_loop self queue in_flight = (queue', in_flight', sent) →
  sent.*1 = take (Z.to_nat (_max_concurrent self - in_flight)) queue ∧
  queue' = drop (Z.to_nat (_max_concurrent self - in_flight)) queue.
Proof.
  revert in_flight queue' in_flight' sent.
  induction queue as [|offset rest IH]; intros n queue' n' sent; simpl.
  - intros [= <- <- <-]. by rewrite take_nil, drop_nil.
  - destruct (n <? _max_concurrent self) eqn:Hcap.
    + destruct (start_more_loop self rest (n + 1)) as [[q m] out] eqn:Hloop.
      intros [= <- <- <-]. destruct (IH _ _ _ _ Hloop) as [Hsent Hq].
      replace (Z.to_nat (_max_concurrent self - n))
        with (S (Z.to_nat (_max_concurrent self - (n + 1)))) by lia.
      split; [rewrite fmap_cons, Hsent; reflexivity|exact Hq].
    + intros [= <- <- <-].
      replace (Z.to_nat (_max_concurrent self - n)) with 0%nat by lia.
      done.
Qed.

Lemma sent_by_key (sent : list (Z * QNetworkRequest)) (f : Z → QNetworkRequest) :
  (∀ offset request, (offset, request) ∈ sent → request = f offset) →
  sent = (λ offset, (offset, f offset)) <$> sent.*1.
Proof.
  induction sent as [|[o r] sent IH]; intros Hreq; [done|].
  rewrite !fmap_cons. cbn [fst]. f_equal.
  - f_equal. apply Hreq. by left.
  - apply IH. intros offset request Hin. apply Hreq. by right.
Qed.

(** X5: [fetch_offsets] sends at once requests for the first keys of the
    input, as many as the cap allows, in input order, and queues the rest
    in input order. *)
Theorem start_admits_in_order
    (self : ImageFetcher.t) (offsets : list Z)
    (headers_by_offset : option (gmap Z (gmap string string)))
    (force_network : bool) :
  let s := start self offsets headers_by_offset force_network in
  let room := Z.to_nat (_max_concurrent self) in
  in_network s
    = (λ offset, (offset, build_request (fetcher s) offset)) <$> take room offsets ∧
  _queue (fetcher s) = drop room offsets ∧
  length (in_network s) = (room `min` length offsets)%nat.
Proof.
  cbn zeta.
  assert (in_network (start self offsets headers_by_offset force_network)
          = (λ offset,
               (offset,
                build_request
                  (fetcher (start self offsets headers_by_offset force_network))
                  offset)) <$> take (Z.to_nat (_max_concurrent self)) offsets ∧
          _queue (fetcher (start self offsets headers_by_offset force_network))
          = drop (Z.to_nat (_max_concurrent self)) offsets) as [Hsent Hqueue].
  { unfold start, fetch_offsets. cbn [_total].
    destruct (Z.of_nat (length offsets) =? 0) eqn:Hempty.
    - assert (offsets = []) as -> by (destruct offsets; [done|simpl in *; lia]).
      cbn. by rewrite take_nil, drop_nil.
    - unfold _start_more. cbn [_queue _in_flight].
      destruct (start_more_loop _ offsets 0) as [[q m] out] eqn:Hloop.
      pose proof (start_more_loop_spec _ _ _ _ _ _ Hloop) as (_ & _ & _ & _ & Hreq).
      apply start_more_loop_take in Hloop as [Hsent Hq].
      cbn in *. rewrite Z.sub_0_r in Hsent, Hq. split; [|done].
      rewrite <- Hsent. etrans; [apply (sent_by_key out _ Hreq)|].
      reflexivity. }
  split; [done|]. split; [done|].
  by rewrite Hsent, length_fmap, length_take.
Qed.

Section Network.

Variable loadFromData : list byte → option QPixmap.

(** One finished request, in full: the key it resolves, the requests it
    makes the scheduler send and the queue it leaves. *)
Lemma finish_inv s i answer s' :
  finish loadFromData s i answer = Some s' →
  ∃ offset request sent,
    in_network s !! i = Some (offset, request) ∧
    omap key_of (emitted s') = omap key_of (emitted s) ++ [offset] ∧
    in_network s' = delete i (in_network s) ++ sent ∧
    _queue (fetcher s) = sent.*1 ++ _queue (fetcher s') ∧
    (∀ o r, (o, r) ∈ sent → r = build_request (fetcher s) o) ∧
    (_done (fetcher s) + 1 = _total (fetcher s) → sent = []) ∧
    (_done (fetcher s) + 1 ≠ _total (fetcher s) →
     sent.*1 = take (Z.to_nat (_max_concurrent (fetcher s)
                               - (_in_flight (fetcher s) - 1)))
                 (_queue (fetcher s))).
Proof.
  unfold finish.
  destruct (in_network s !! i) as [[offset request]|]; [|discriminate].
  unfold _on_finished. cbn [_done _total].
  set (reply := {| property_offset := offset |}).
  pose proof (classify_keyed loadFromData reply) as Hkey.
  destruct (_done (fetcher s) + 1 =? _total (fetcher s)) eqn:Hlast.
  - intros [= <-]. cbn. exists offset, request, [].
    rewrite omap_app. cbn. rewrite Hkey. cbn.
    repeat split; try done; try (intros; lia).
    all: try (by intros ?? ?%elem_of_nil).
    all: by rewrite app_nil_l.
  - unfold _start_more. cbn [_queue _in_flight].
    destruct (start_more_loop _ _ _) as [[q m] out] eqn:Hloop.
    pose proof (start_more_loop_spec _ _ _ _ _ _ Hloop) as (Hq & _ & _ & _ & Hreq).
    apply start_more_loop_take in Hloop as [Hsent _].
    intros [= <-]. cbn in *. exists offset, request, out.
    rewrite omap_app. cbn. rewrite Hkey. cbn.
    repeat split; try done; try lia.
Qed.

Lemma finish_returns s i :
  is_Some (in_network s !! i) →
  ∀ answer, is_Some (finish loadFromData s i answer).
Proof.
  intros [[offset request] Hi] answer. unfold finish. rewrite Hi.
  destruct (_on_finished _ _ _) as [[self signals] sent]. by eexists.
Qed.

(** X6: while a batch runs, a finished request makes the scheduler send
    exactly the next queued key, if one is queued, and nothing otherwise;
    the queue loses that key. *)
Theorem finish_admits_next_queued
    (self : ImageFetcher.t) (offsets : list Z)
    (headers_by_offset : option (gmap Z (gmap string string)))
    (force_network : bool) (steps : list (nat * Answer)) (s : Batch.t)
    (i : nat) (answer : Answer) (s' : Batch.t) :
  1 ≤ _max_concurrent self →
  run loadFromData (start self offsets headers_by_offset force_network) steps
    = Some s →
  finish loadFromData s i answer = Some s' →
  in_network s'
    = delete i (in_network s) ++
      ((λ offset, (offset, build_request (fetcher s) offset))
         <$> take 1 (_queue (fetcher s))) ∧
  _queue (fetcher s') = drop 1 (_queue (fetcher s)).
Proof.
  intros Hcap Hrun Hfin.
  destruct (start_consistent self offsets headers_by_offset force_network Hcap)
    as (Hs0 & _).
  destruct (run_consistent _ _ _ _ Hs0 Hrun)
    as ([Hpos Hcount Hle Hwait Hkeys Hdone _] & _).
  destruct (finish_inv _ _ _ _ Hfin)
    as (offset & request & sent & Hi & _ & Hnet & Hq & Hreq & Hlast & Hmore).
  apply lookup_lt_Some in Hi.
  assert (sent.*1 = take 1 (_queue (fetcher s))) as Hsent.
  { destruct (decide (_done (fetcher s) + 1 = _total (fetcher s))) as [Heq|Hne].
    - rewrite (Hlast Heq). destruct (_queue (fetcher s)); [done|simpl in *; lia].
    - rewrite (Hmore Hne). destruct (_queue (fetcher s)) as [|o q] eqn:Hqueue.
      + by rewrite !take_nil.
      + assert (_in_flight (fetcher s) = _max_concurrent (fetcher s)) as ->.
        { destruct (decide (_in_flight (fetcher s) < _max_concurrent (fetcher s)))
            as [Hlt|]; [|lia].
          specialize (Hwait Hlt). discriminate. }
        by replace (Z.to_nat _) with 1%nat by lia. }
  split.
  - rewrite Hnet. f_equal. rewrite <- Hsent. by apply sent_by_key.
  - rewrite Hsent in Hq.
    rewrite <- (take_drop 1 (_queue (fetcher s))) in Hq at 1.
    apply app_inv_head in Hq. by symmetry.
Qed.

Lemma run_keys steps s0 s :
  run loadFromData s0 steps = Some s →
  omap key_of (emitted s) ++ (in_network s).*1 ++ _queue (fetcher s)
  ≡ₚ omap key_of (emitted s0) ++ (in_network s0).*1 ++ _queue (fetcher s0).
Proof.
  revert s0 s. induction steps as [|[i answer] steps IH]; intros s0 s; simpl.
  - by intros [= <-].
  - destruct (finish loadFromData s0 i answer) as [s1|] eqn:Hfin; [|discriminate].
    intros Hrun. rewrite (IH _ _ Hrun).
    destruct (finish_inv _ _ _ _ Hfin)
      as (offset & request & sent & Hi & Hem & Hnet & Hq & _).
    pose proof (fmap_Permutation fst _ _ (delete_Permutation _ _ _ Hi)) as Hl.
    rewrite fmap_cons in Hl. cbn [fst] in Hl.
    rewrite Hem, Hnet, Hq, fmap_app, Hl, <- !app_assoc. done.
Qed.

Lemma start_keys self offsets headers_by_offset force_network :
  let s := start self offsets headers_by_offset force_network in
  omap key_of (emitted s) ++ (in_network s).*1 ++ _queue (fetcher s) = offsets.
Proof.
  cbn zeta.
  destruct (start_admits_in_order self offsets headers_by_offset force_network)
    as (Hnet & Hqueue & _).
  rewrite Hnet, Hqueue, <- list_fmap_compose.
  assert (omap key_of (emitted (start self offsets headers_by_offset force_network))
          = []) as ->.
  { unfold start, fetch_offsets. destruct (_ =? _); [done|].
    by destruct (_start_more _). }
  simpl. rewrite (list_fmap_ext _ id) by done.
  by rewrite list_fmap_id, take_drop.
Qed.

Lemma run_ends_with_batchFinished steps s0 s :
  run loadFromData s0 steps = Some s →
  (_done (fetcher s0) = _total (fetcher s0) →
   last (emitted s0) = Some batchFinished) →
  _done (fetcher s) = _total (fetcher s) →
  last (emitted s) = Some batchFinished.
Proof.
  revert s0. induction steps as [|[i answer] steps IH]; intros s0; simpl.
  - intros [= <-]. auto.
  - destruct (finish loadFromData s0 i answer) as [s1|] eqn:Hfin; [|discriminate].
    intros Hrun _. apply (IH _ Hrun).
    destruct (finish_signals _ _ _ _ _ Hfin) as (-> & -> & _ & first & _ & ->).
    intros Hend. rewrite bool_decide_eq_true_2 by done.
    by rewrite (last_app_cons _ _ first), (last_cons_cons first),
         (last_cons_cons (progressChanged _ _)).
Qed.

(** X7: at every moment of a batch each key of the input is in exactly
    one place: resolved (its signal emitted), in flight, or queued. *)
Theorem every_key_accounted_for
    (self : ImageFetcher.t) (offsets : list Z)
    (headers_by_offset : option (gmap Z (gmap string string)))
    (force_network : bool) (steps : list (nat * Answer)) (s : Batch.t) :
  run loadFromData (start self offsets headers_by_offset force_network) steps
    = Some s →
  omap key_of (emitted s) ++ (in_network s).*1 ++ _queue (fetcher s) ≡ₚ offsets.
Proof.
  intros Hrun. rewrite (run_keys _ _ _ Hrun). by rewrite start_keys.
Qed.

(** X8: a batch always ends: whatever the answers are, errors included,
    one answer per key resolves every key once, leaves no request out and
    no key queued, and ends with [batchFinished]. *)
Theorem batch_completes_on_any_answers
    (self : ImageFetcher.t) (offsets : list Z)
    (headers_by_offset : option (gmap Z (gmap string string)))
    (force_network : bool) (answers : list Answer) :
  1 ≤ _max_concurrent self →
  length answers = length offsets →
  ∃ s,
    run loadFromData (start self offsets headers_by_offset force_network)
      ((λ answer, (0%nat, answer)) <$> answers) = Some s ∧
    _done (fetcher s) = _total (fetcher s) ∧
    in_network s = [] ∧ _queue (fetcher s) = [] ∧
    omap key_of (emitted s) ≡ₚ offsets ∧
    last (emitted s) = Some batchFinished.
Proof.
  intros Hcap Hlen.
  destruct (start_consistent self offsets headers_by_offset force_network Hcap)
    as (Hs0 & Ht0 & Hd0).
  assert (∀ answers s0,
            consistent s0 →
            Z.of_nat (length answers) = _total (fetcher s0) - _done (fetcher s0) →
            is_Some (run loadFromData s0 ((λ answer, (0%nat, answer)) <$> answers)))
    as Hlive.
  { clear. induction answers as [|answer answers IH]; intros s0 Hs0 Hleft; simpl.
    - by eexists.
    - destruct (in_network s0) as [|p rest] eqn:Hnet.
      + destruct Hs0 as [Hpos Hcount _ Hwait Hkeys _ _].
        rewrite Hnet in Hcount. simpl in *.
        rewrite Hwait in Hkeys by lia. simpl in *. lia.
      + destruct (finish_returns s0 0) with (answer := answer) as [s1 Hfin];
          [rewrite Hnet; by eexists|].
        rewrite Hfin. apply IH; [by eapply finish_consistent|].
        destruct (finish_signals _ _ _ _ _ Hfin) as (-> & -> & _).
        simpl in Hleft. lia. }
  destruct (Hlive answers _ Hs0) as [s Hrun]; [lia|].
  exists s. split; [done|].
  destruct (run_consistent _ _ _ _ Hs0 Hrun) as (Hs & Hd & Ht).
  rewrite length_fmap in Hd.
  destruct Hs as [Hpos Hcount Hle Hwait Hkeys Hdone Hsig].
  assert (_done (fetcher s) = _total (fetcher s)) as Hend by lia.
  assert (in_network s = []) as Hnone.
  { destruct (in_network s); [done|simpl in *; lia]. }
  assert (_queue (fetcher s) = []) as Hqueue.
  { destruct (_queue (fetcher s)); [done|simpl in *; lia]. }
  split; [done|]. split; [done|]. split; [done|]. split.
  - pose proof (run_keys _ _ _ Hrun) as Hperm.
    rewrite Hnone, Hqueue, !app_nil_r, start_keys in Hperm. done.
  - apply (run_ends_with_batchFinished _ _ _ Hrun); [|done].
    unfold start, fetch_offsets. cbn [_total].
    destruct (Z.of_nat (length offsets) =? 0) eqn:Hempty; [done|].
    destruct (_start_more _) as [self' sent] eqn:Hmore.
    destruct (start_more_spec _ _ _ Hmore) as (-> & _).
    cbn. lia.
Qed.

End Network.

Lemma finish_admits_next_queued_witness :
  ∃ s s',
    run Sample.no_image
      (start (ImageFetcher.__init__ BASE_URL) [6; 12; 18; 24; 30; 36] None false)
      [] = Some s ∧
    finish Sample.no_image s 1 Sample.not_modified = Some s' ∧
    (in_network s').*1 = [6; 18; 24; 30] ∧
    _queue (fetcher s') = [36].
Proof.
  eexists _, _. split; [reflexivity|]. split; [reflexivity|].
  assert (1 ≤ _max_concurrent (ImageFetcher.__init__ BASE_URL)) as Hcap.
  { change (1 ≤ 4). lia. }
  destruct (finish_admits_next_queued Sample.no_image
              (ImageFetcher.__init__ BASE_URL) [6; 12; 18; 24; 30; 36] None false
              [] _ 1 Sample.not_modified _ Hcap eq_refl eq_refl)
    as [Hnet Hqueue].
  split; [by rewrite Hnet|exact Hqueue].
Defined.

Lemma every_key_accounted_for_witness :
  ∃ s,
    run Sample.no_image
      (start (ImageFetcher.__init__ BASE_URL) [6; 12; 18; 24; 30; 36] None false)
      [(1%nat, Sample.not_modified)] = Some s ∧
    omap key_of (emitted s) ++ (in_network s).*1 ++ _queue (fetcher s)
    ≡ₚ [6; 12; 18; 24; 30; 36].
Proof.
  eexists. split; [reflexivity|].
  exact (every_key_accounted_for Sample.no_image
           (ImageFetcher.__init__ BASE_URL) [6; 12; 18; 24; 30; 36] None false
           [(1%nat, Sample.not_modified)] _ eq_refl).
Defined.

Lemma batch_completes_on_any_answers_witness :
  ∃ s,
    run Sample.no_image
      (start (ImageFetcher.__init__ BASE_URL) [6; 12] None false)
      [(0%nat, Sample.not_modified); (0%nat, Sample.not_modified)] = Some s ∧
    in_network s = [] ∧
    last (emitted s) = Some batchFinished.
Proof.
  assert (1 ≤ _max_concurrent (ImageFetcher.__init__ BASE_URL)) as Hcap.
  { change (1 ≤ 4). lia. }
  destruct (batch_completes_on_any_answers Sample.no_image
              (ImageFetcher.__init__ BASE_URL) [6; 12] None false
              [Sample.not_modified; Sample.not_modified] Hcap eq_refl)
    as (s & Hrun & _ & Hnone & _ & _ & Hlast).
  exists s. split; [exact Hrun|]. split; [exact Hnone|exact Hlast].
Defined.

End SchedulerExtras.

(** ** The window and the content cache *)

Module WindowExtras.
Import MainWindow.

Lemma string_length_app (s t : string) :
  String.length (s +:+ t) = (String.length s + String.length t)%nat.
Proof. induction s as [|c s IH]; simpl; [done|]. by rewrite IH. Qed.

Lemma string_app_inv_tail (x y s : string) : x +:+ s = y +:+ s → x = y.
Proof.
  revert y. induction x as [|c x IH]; intros [|c' y] Heq; simpl in Heq.
  - done.
  - apply (f_equal String.length) in Heq. simpl in Heq.
    rewrite !string_length_app in Heq. simpl in Heq. lia.
  - apply (f_equal String.length) in Heq. simpl in Heq.
    rewrite !string_length_app in Heq. simpl in Heq. lia.
  - injection Heq as -> Heq. f_equal. by apply IH.
Qed.

Local Abbreviation zero_digit :=
  (Ascii.Ascii false false false false true true false false).

(** A positive number is written with a first digit that is not 0. *)
Lemma pretty_N_go_head (x : N) (s : string) :
  (0 < x)%N →
  ∃ c rest, pretty_N_go x s = String c rest ∧ c ≠ zero_digit.
Proof.
  revert s. induction (N.lt_wf_0 x) as [x _ IH]; intros s Hx.
  rewrite pretty_N_go_step by done.
  assert (x < 10 ∨ 10 ≤ x)%N as [Hsmall|Hbig] by lia.
  - rewrite N.div_small, N.mod_small, pretty_N_go_0 by done.
    eexists _, _. split; [reflexivity|].
    intros Hzero. change zero_digit with (pretty_N_char 0) in Hzero.
    apply pretty_N_char_inj in Hzero; lia.
  - apply IH; [by apply N.div_lt|]. apply N.div_str_pos. lia.
Qed.

(** How a number that is not negative is written: as 0, or with a first
    digit that is not 0. *)
Lemma pretty_Z_head (n : Z) :
  0 ≤ n →
  pretty n = "0"%string
  ∨ ∃ c rest, pretty n = String c rest
              ∧ c ≠ zero_digit.
Proof.
  intros Hn. destruct n as [|p|p]; [by left| |lia].
  right. unfold pretty, pretty_Z, pretty, pretty_positive, pretty, pretty_N.
  rewrite decide_False by done. by apply pretty_N_go_head.
Qed.

Lemma zeros_app_inj (ka kb : nat) (pa pb : string) :
  (pa = "0"%string
   ∨ ∃ c rest, pa = String c rest
               ∧ c ≠ zero_digit) →
  (pb = "0"%string
   ∨ ∃ c rest, pb = String c rest
               ∧ c ≠ zero_digit) →
  zeros ka +:+ pa = zeros kb +:+ pb → pa = pb.
Proof.
  intros Ha Hb. revert kb.
  assert (∀ k p q,
            (p = "0"%string
             ∨ ∃ c rest, p = String c rest
                         ∧ c ≠ zero_digit) →
            (q = "0"%string
             ∨ ∃ c rest, q = String c rest
                         ∧ c ≠ zero_digit) →
            p = zeros (S k) +:+ q → False) as Hno.
  { intros k p q Hp Hq Heq. simpl in Heq.
    destruct Hp as [->|(c & rest & -> & Hc)].
    - injection Heq as Heq. destruct k; simpl in Heq; [|discriminate].
      destruct Hq as [->|(c & rest & -> & _)]; discriminate.
    - injection Heq as -> _. done. }
  induction ka as [|ka IH]; intros [|kb] Heq; simpl in Heq.
  - done.
  - exfalso. by apply (Hno kb pa pb).
  - exfalso. by apply (Hno ka pb pa).
  - injection Heq as Heq. by apply (IH kb).
Qed.

(** The file names of offsets that are not negative are pairwise
    distinct. *)
Lemma path_for_inj a b :
  0 ≤ a → 0 ≤ b →
  ForecastCache.path_for a = ForecastCache.path_for b → a = b.
Proof.
  intros Ha Hb Heq. unfold ForecastCache.path_for in Heq.
  apply (inj (String.append "ECMWF_")) in Heq.
  apply string_app_inv_tail in Heq. unfold format_03d in Heq.
  destruct (a <? 0) eqn:Hna; [lia|]. destruct (b <? 0) eqn:Hnb; [lia|].
  apply zeros_app_inj in Heq; try by apply pretty_Z_head.
  by apply (inj pretty).
Qed.

(** [update] looks at an etag and a last_modified only if non-empty. *)
Lemma update_ext self offset etag etag' last_modified last_modified' :
  truthy etag = truthy etag' →
  (truthy etag = true → etag = etag') →
  truthy last_modified = truthy last_modified' →
  (truthy last_modified = true → last_modified = last_modified') →
  MetadataCache.update self offset etag last_modified
  = MetadataCache.update self offset etag' last_modified'.
Proof.
  intros He Hetag Hl Hlm. unfold MetadataCache.update.
  rewrite <- He, <- Hl.
  destruct (truthy etag), (truthy last_modified);
    rewrite <- ?Hetag, <- ?Hlm; done.
Qed.

Section Codec.

Variable loadFromData : list byte → option QPixmap.
Variable toPNG : QPixmap → list byte.

(** X9: a reply that is not a 304 and either failed in transport or has
    a body that does not decode makes the scheduler emit [imageError] for
    its key, and the slots leave the frame table, the files of the content
    cache and the table of the validator store as they were. *)
Theorem failed_reply_writes_nothing
    (self : ImageFetcher.t) (reply : QNetworkReply) (window : MainWindow.t) :
  HttpStatusCodeAttribute (answer reply) ≠ Some 304 →
  error (answer reply) = Failed
  ∨ loadFromData (readAll (answer reply)) = None →
  ∃ self' signals sent window',
    ImageFetcher._on_finished loadFromData self reply = (self', signals, sent) ∧
    signals =
      imageError (property_offset reply)
        (match error (answer reply) with
         | Failed => errorString (answer reply)
         | NoError => "invalid image data"
         end) ::
      progressChanged (ImageFetcher._done self + 1) (ImageFetcher._total self) ::
      (if bool_decide (ImageFetcher._done self + 1 = ImageFetcher._total self)
       then [batchFinished] else []) ∧
    deliver toPNG window signals = Ok window' ∧
    frames window' = frames window ∧
    cache window' = cache window ∧
    MetadataCache.data (metadata window') = MetadataCache.data (metadata window) ∧
    _progress_updated window' = _progress_updated window ∧
    _progress_unchanged window' = _progress_unchanged window.
Proof.
  intros Hstatus Hfail.
  assert (ImageFetcher.classify loadFromData reply
          = imageError (property_offset reply)
              (match error (answer reply) with
               | Failed => errorString (answer reply)
               | NoError => "invalid image data"
               end)) as Hclass.
  { unfold ImageFetcher.classify. rewrite bool_decide_eq_false_2 by done.
    destruct (error (answer reply)); [|done].
    destruct Hfail as [Hf|Hf]; [done|by rewrite Hf]. }
  unfold ImageFetcher._on_finished. rewrite Hclass. cbn.
  destruct (ImageFetcher._done self + 1 =? ImageFetcher._total self) eqn:Hlast.
  - rewrite bool_decide_eq_true_2 by lia.
    destruct (MetadataCache._dirty (metadata window)) eqn:Hdirty;
      eexists _, _, _, _;
      (split; [reflexivity|]); (split; [reflexivity|]);
      cbn;
      unfold _on_batch_finished, _on_fetch_progress, _on_image_error,
        MetadataCache.save; cbn;
      rewrite ?Hdirty; cbn; (split; [reflexivity|done]).
  - rewrite bool_decide_eq_false_2 by lia.
    destruct (ImageFetcher._start_more _) as [self' sent].
    eexists _, _, _, _. split; [reflexivity|]. split; [reflexivity|].
    cbn. split; [reflexivity|done].
Qed.

(** X10: a reply that is not a 304, did not fail and has a body that
    decodes is written through: the frame of its key becomes the decoded
    image, the image is saved under the file of the key, and the validator
    store is what [update] makes of it with the stripped ETag and
    Last-Modified headers; every other frame and file stays as it was. *)
Theorem loaded_reply_writes_through
    (self : ImageFetcher.t) (reply : QNetworkReply) (window : MainWindow.t)
    (pixmap : QPixmap) :
  HttpStatusCodeAttribute (answer reply) ≠ Some 304 →
  error (answer reply) = NoError →
  loadFromData (readAll (answer reply)) = Some pixmap →
  MetadataCache.is_table (MetadataCache.data (metadata window)) = true →
  ∃ self' signals sent window' store,
    ImageFetcher._on_finished loadFromData self reply = (self', signals, sent) ∧
    deliver toPNG window signals = Ok window' ∧
    frames window' = <[property_offset reply := Some pixmap]> (frames window) ∧
    ForecastCache.files (cache window')
      = <[ForecastCache.path_for (property_offset reply) := toPNG pixmap]>
          (ForecastCache.files (cache window)) ∧
    MetadataCache.update (metadata window) (property_offset reply)
      (Some (strip (header_ETag (answer reply))))
      (Some (strip (header_Last_Modified (answer reply)))) = Ok store ∧
    MetadataCache.data (metadata window') = MetadataCache.data store ∧
    _progress_updated window' = _progress_updated window + 1.
Proof.
  intros Hstatus Herror Hload Htable.
  set (etag := strip (header_ETag (answer reply))).
  set (last_modified := strip (header_Last_Modified (answer reply))).
  assert (∃ meta,
            ImageFetcher.classify loadFromData reply
            = imageLoaded (property_offset reply) pixmap meta ∧
            MetadataCache.update (metadata window) (property_offset reply)
              (meta !! "etag") (meta !! "last_modified")
            = MetadataCache.update (metadata window) (property_offset reply)
                (Some etag) (Some last_modified)) as (meta & Hclass & Hmeta).
  { unfold ImageFetcher.classify. rewrite bool_decide_eq_false_2 by done.
    rewrite Herror, Hload. fold etag last_modified.
    eexists. split; [reflexivity|]. apply update_ext.
    - destruct (truthy (Some etag)) eqn:He,
        (truthy (Some last_modified)) eqn:Hl; by simplify_map_eq.
    - destruct (truthy (Some etag)) eqn:He,
        (truthy (Some last_modified)) eqn:Hl; by simplify_map_eq.
    - destruct (truthy (Some etag)) eqn:He,
        (truthy (Some last_modified)) eqn:Hl; by simplify_map_eq.
    - destruct (truthy (Some etag)) eqn:He,
        (truthy (Some last_modified)) eqn:Hl; by simplify_map_eq. }
  assert (∃ store,
            MetadataCache.update (metadata window) (property_offset reply)
              (Some etag) (Some last_modified) = Ok store) as [store Hstore].
  { clear Hmeta. destruct (metadata window) as [v dirty]. simpl in Htable.
    destruct v as [| | | | |d]; try discriminate.
    destruct (MetadataCacheFacts.update_table d dirty (property_offset reply)
                (Some etag) (Some last_modified) Htable) as (r & Hr & _).
    eauto. }
  unfold ImageFetcher._on_finished. rewrite Hclass. cbn.
  destruct (ImageFetcher._done self + 1 =? ImageFetcher._total self) eqn:Hlast.
  - destruct (MetadataCache._dirty store) eqn:Hdirty;
      eexists _, _, _, _, store;
      (split; [reflexivity|]);
      cbn; unfold _on_image_loaded; rewrite Hmeta, Hstore; cbn;
      unfold _on_batch_finished, _on_fetch_progress, MetadataCache.save; cbn;
      rewrite ?Hdirty; cbn; (split; [reflexivity|done]).
  - destruct (ImageFetcher._start_more _) as [self' sent].
    eexists _, _, _, _, store. split; [reflexivity|].
    cbn. unfold _on_image_loaded. rewrite Hmeta, Hstore. cbn.
    split; [reflexivity|done].
Qed.

(** X11: an image saved for a key is the image loaded for it, provided
    the PNG bytes decode to the image they encode; a key whose file is
    missing, or does not decode, loads as absent. *)
Theorem cache_save_then_load
    (self : ForecastCache.t) (offset : Z) (pixmap : QPixmap) :
  loadFromData (toPNG pixmap) = Some pixmap →
  ForecastCache.load loadFromData
    (ForecastCache.save toPNG self offset pixmap) offset = Some pixmap ∧
  ∀ other,
    ForecastCache.files self !! ForecastCache.path_for other = None
    ∨ (∃ content, ForecastCache.files self !! ForecastCache.path_for other
                  = Some content ∧ loadFromData content = None) →
    ForecastCache.load loadFromData self other = None.
Proof.
  intros Hcodec. split.
  - unfold ForecastCache.load, ForecastCache.save. cbn.
    by rewrite lookup_insert_eq.
  - intros other [Hnone|(content & Hsome & Hbad)]; unfold ForecastCache.load.
    + by rewrite Hnone.
    + by rewrite Hsome.
Qed.

(** X12: saving an image for one offset never changes what is loaded
    for another one, for offsets that are not negative: their file names
    are distinct. *)
Theorem cache_save_leaves_other_keys
    (self : ForecastCache.t) (offset other : Z) (pixmap : QPixmap) :
  0 ≤ offset → 0 ≤ other → other ≠ offset →
  ForecastCache.path_for other ≠ ForecastCache.path_for offset ∧
  ForecastCache.load loadFromData
    (ForecastCache.save toPNG self offset pixmap) other
  = ForecastCache.load loadFromData self other.
Proof.
  intros Ho Hother Hne.
  assert (ForecastCache.path_for other ≠ ForecastCache.path_for offset) as Hpath.
  { intros Heq. by apply Hne, path_for_inj. }
  split; [done|].
  unfold ForecastCache.load, ForecastCache.save. cbn.
  by rewrite lookup_insert_ne.
Qed.

Lemma seeded_frames (cache : ForecastCache.t) (keys : list Z)
    (frames0 : gmap Z (option QPixmap)) (offset : Z) :
  foldl (λ frames key,
           match ForecastCache.load loadFromData cache key with
           | Some cached => <[key := Some cached]> frames
           | None => frames
           end) frames0 keys !! offset
  = match ForecastCache.load loadFromData cache offset with
    | Some cached =>
        if bool_decide (offset ∈ keys) then Some (Some cached)
        else frames0 !! offset
    | None => frames0 !! offset
    end.
Proof.
  revert frames0. induction keys as [|key keys IH]; intros frames0; simpl.
  - by destruct (ForecastCache.load _ _ _).
  - rewrite IH.
    destruct (ForecastCache.load loadFromData cache offset) as [cached|] eqn:Hoff.
    + destruct (decide (offset = key)) as [->|Hne].
      * rewrite Hoff, lookup_insert_eq.
        rewrite (bool_decide_eq_true_2 (key ∈ key :: keys)) by left.
        by case_bool_decide.
      * assert (bool_decide (offset ∈ key :: keys) = bool_decide (offset ∈ keys))
          as -> by (apply bool_decide_ext; rewrite elem_of_cons; tauto).
        case_bool_decide; [done|].
        destruct (ForecastCache.load loadFromData cache key); [|done].
        by rewrite lookup_insert_ne.
    + destruct (ForecastCache.load loadFromData cache key) as [c|] eqn:Hkey; [|done].
      rewrite lookup_insert_ne; [done|]. intros ->. congruence.
Qed.

(** X13: after [__init__] the frame table has an entry exactly for the
    forty offsets, and each entry is what the content cache loads for its
    key: the image of its file, or no image when the file is missing or
    does not decode. *)
Theorem init_seeds_frames_from_cache
    (cache_files : gmap string (list byte)) (metadata_file : option document)
    (offset : Z) :
  frames (__init__ loadFromData cache_files metadata_file) !! offset
  = if bool_decide (offset ∈ build_offsets)
    then Some (ForecastCache.load loadFromData
                 (ForecastCache.mk cache_files) offset)
    else None.
Proof.
  unfold __init__. cbn [frames]. rewrite seeded_frames.
  set (blank := list_to_map ((λ key, (key, None)) <$> build_offsets)
                : gmap Z (option QPixmap)).
  assert (blank !! offset
          = if bool_decide (offset ∈ build_offsets) then Some None else None)
    as Hblank.
  { case_bool_decide as Hin.
    - destruct (blank !! offset) as [v|] eqn:Hv.
      + apply elem_of_list_to_map_2 in Hv.
        apply list_elem_of_fmap in Hv as (key & [= -> ->] & _). done.
      + apply not_elem_of_list_to_map in Hv. exfalso. apply Hv.
        rewrite <- list_fmap_compose. apply list_elem_of_fmap. by exists offset.
    - apply not_elem_of_list_to_map. rewrite <- list_fmap_compose.
      intros (key & -> & Hkey)%list_elem_of_fmap. done. }
  rewrite Hblank.
  destruct (ForecastCache.load _ _ _); by case_bool_decide.
Qed.

End Codec.

Lemma failed_reply_writes_nothing_witness :
  let reply :=
    {| property_offset := 6;
       request_of := ImageFetcher.build_request (ImageFetcher.__init__ BASE_URL) 6;
       answer :=
         {| HttpStatusCodeAttribute := None;
            header_ETag := EmptyString;
            header_Last_Modified := EmptyString;
            error := Failed;
            errorString := "Host not found";
            readAll := [] |} |} in
  ∃ self' signals sent window',
    ImageFetcher._on_finished Sample.no_image (ImageFetcher.__init__ BASE_URL) reply
    = (self', signals, sent) ∧
    head signals = Some (imageError 6 "Host not found") ∧
    deliver Sample.pixels_only Sample.window signals = Ok window' ∧
    frames window' = frames Sample.window.
Proof.
  intros reply.
  assert (HttpStatusCodeAttribute (answer reply) ≠ Some 304) as Hstatus
    by discriminate.
  destruct (failed_reply_writes_nothing Sample.no_image Sample.pixels_only
              (ImageFetcher.__init__ BASE_URL) reply Sample.window Hstatus
              (or_introl eq_refl))
    as (self' & signals & sent & window' & Hrun & Hsignals & Hdeliver
        & Hframes & _).
  exists self', signals, sent, window'.
  split; [exact Hrun|]. split; [by rewrite Hsignals|].
  split; [exact Hdeliver|exact Hframes].
Defined.

Lemma loaded_reply_writes_through_witness :
  let decode (content : list byte) :=
    Some {| width := 1; height := 1; pixels := content |} in
  let reply :=
    {| property_offset := 6;
       request_of := ImageFetcher.build_request (ImageFetcher.__init__ BASE_URL) 6;
       answer :=
         {| HttpStatusCodeAttribute := Some 200;
            header_ETag :=
              String (Ascii.ascii_of_nat 194)
                (String (Ascii.ascii_of_nat 160) " abc ");
            header_Last_Modified := EmptyString;
            error := NoError;
            errorString := EmptyString;
            readAll := [] |} |} in
  ∃ self' signals sent window',
    ImageFetcher._on_finished decode (ImageFetcher.__init__ BASE_URL) reply
    = (self', signals, sent) ∧
    deliver Sample.pixels_only Sample.window signals = Ok window' ∧
    frames window' !! 6 = Some (Some {| width := 1; height := 1; pixels := [] |}) ∧
    MetadataCache.headers_for (metadata window') 6
    = Ok {[ "etag" := JStr "abc" ]}.
Proof.
  intros decode reply.
  assert (HttpStatusCodeAttribute (answer reply) ≠ Some 304) as Hstatus
    by discriminate.
  destruct (loaded_reply_writes_through decode Sample.pixels_only
              (ImageFetcher.__init__ BASE_URL) reply Sample.window
              {| width := 1; height := 1; pixels := [] |}
              Hstatus eq_refl eq_refl MetadataCacheFacts.is_table_empty)
    as (self' & signals & sent & window' & store & Hrun & Hdeliver & Hframes
        & _ & Hstore & Hdata & _).
  exists self', signals, sent, window'.
  split; [exact Hrun|]. split; [exact Hdeliver|].
  split; [by rewrite Hframes, lookup_insert_eq|].
  rewrite (StoreExtras.headers_for_data store) by exact Hdata.
  injection Hstore as <-. reflexivity.
Defined.

Lemma cache_save_then_load_witness :
  let decode (content : list byte) :=
    Some {| width := 1; height := 1; pixels := content |} in
  let pixmap := {| width := 1; height := 1; pixels := [] |} in
  ForecastCache.load decode
    (ForecastCache.save Sample.pixels_only (ForecastCache.mk ∅) 6 pixmap) 6
  = Some pixmap.
Proof.
  intros decode pixmap.
  exact (proj1 (cache_save_then_load decode Sample.pixels_only
                  (ForecastCache.mk ∅) 6 pixmap eq_refl)).
Defined.

Lemma cache_save_leaves_other_keys_witness :
  ForecastCache.path_for 12 ≠ ForecastCache.path_for 6.
Proof.
  assert (0 ≤ 6) as H6 by lia.
  assert (0 ≤ 12) as H12 by lia.
  assert (12 ≠ 6) as Hne by lia.
  exact (proj1 (cache_save_leaves_other_keys Sample.no_image Sample.pixels_only
                  (ForecastCache.mk ∅) 6 12
                  {| width := 1; height := 1; pixels := [] |} H6 H12 Hne)).
Defined.

End WindowExtras.

(** ** The priority planner on any list of offsets *)

Module PlannerExtras.
Import MainWindow PlannerFacts.

(** [l[i]] for an index in range, counted from the end if negative. *)
Lemma py_index_in_range (l : list Z) (i : Z) :
  - Z.of_nat (length l) ≤ i < Z.of_nat (length l) →
  ∃ x, py_index l i = Ok x ∧
       l !! Z.to_nat (i `mod` Z.of_nat (length l)) = Some x.
Proof.
  intros Hi. unfold py_index.
  set (n := Z.of_nat (length l)) in *.
  assert (i `mod` n = if i <? 0 then n + i else i) as Hmod.
  { destruct (i <? 0) eqn:Hneg.
    - symmetry. apply (Z.mod_unique_pos i n (-1)); lia.
    - apply Z.mod_small. lia. }
  rewrite Hmod.
  destruct ((0 <=? (if i <? 0 then n + i else i))
            && ((if i <? 0 then n + i else i) <? n)) eqn:Hin.
  - destruct (l !! Z.to_nat (if i <? 0 then n + i else i)) as [x|] eqn:Hx.
    + by exists x.
    + apply lookup_ge_None in Hx. destruct (i <? 0) eqn:Hneg; lia.
  - destruct (i <? 0) eqn:Hneg; lia.
Qed.

Lemma py_index_out_of_range (l : list Z) (i : Z) :
  i < - Z.of_nat (length l) ∨ Z.of_nat (length l) ≤ i →
  py_index l i = Raise IndexError.
Proof.
  intros Hi. unfold py_index.
  destruct ((0 <=? (if i <? 0 then Z.of_nat (length l) + i else i))
            && ((if i <? 0 then Z.of_nat (length l) + i else i)
                <? Z.of_nat (length l))) eqn:Hin; [|done].
  destruct (i <? 0) eqn:Hneg; lia.
Qed.

(** [add_index] for an index that [py_index] accepts. *)
Lemma add_index_any offsets st idx x :
  placed_once st → py_index offsets idx = Ok x →
  ∃ st', add_index offsets st idx = Ok st' ∧ placed_once st' ∧
         (∃ more, st'.1 = st.1 ++ more ∧ (length more ≤ 1)%nat) ∧
         x ∈ st'.1 ∧
         (st.1 = [] → st'.1 = [x]) ∧
         ∀ y, y ∈ st'.1 → y ∈ st.1 ∨ y ∈ offsets.
Proof.
  intros Hst Hx. unfold add_index. rewrite Hx. simpl.
  pose proof (py_index_elem _ _ _ Hx) as Hin.
  case_bool_decide as Hseen.
  - exists st. split; [done|]. split; [done|].
    split; [exists []; rewrite app_nil_r; split; [done|simpl; lia]|].
    destruct Hst as [_ Hs]. apply Hs in Hseen.
    split; [done|]. split; [|auto].
    intros Hnil. rewrite Hnil in Hseen. by apply elem_of_nil in Hseen.
  - eexists. split; [reflexivity|]. split; [by apply placed_once_add|].
    simpl. split; [exists [x]; split; [done|simpl; lia]|].
    split; [apply elem_of_app; right; by left|].
    split; [by intros ->|].
    intros y [?|Hy%list_elem_of_singleton]%elem_of_app; subst; auto.
Qed.

Lemma add_neighbours_any offsets current_index deltas st :
  offsets ≠ [] → placed_once st →
  ∃ st', add_neighbours offsets current_index (Z.of_nat (length offsets))
           deltas st = Ok st' ∧
         placed_once st' ∧
         (∃ more, st'.1 = st.1 ++ more ∧ (length more ≤ 2 * length deltas)%nat) ∧
         ∀ y, y ∈ st'.1 → y ∈ st.1 ∨ y ∈ offsets.
Proof.
  intros Hne. revert st.
  assert (0 < Z.of_nat (length offsets)) as Hpos
    by (destruct offsets; simpl; [done|lia]).
  assert (∀ k, ∃ x, py_index offsets (k `mod` Z.of_nat (length offsets)) = Ok x)
    as Hidx.
  { intros k.
    destruct (py_index_in_range offsets (k `mod` Z.of_nat (length offsets)))
      as (x & Hx & _); [|by exists x].
    pose proof (Z.mod_pos_bound k _ Hpos). lia. }
  induction deltas as [|delta deltas IH]; intros st Hst; simpl.
  - exists st. split; [done|]. split; [done|].
    split; [exists []; rewrite app_nil_r; split; [done|simpl; lia]|auto].
  - unfold py_mod. destruct (Z.of_nat (length offsets) =? 0) eqn:Hz; [lia|]. simpl.
    destruct (Hidx (current_index + delta)) as [a Ha].
    destruct (add_index_any offsets st _ a Hst Ha)
      as (st1 & -> & Hst1 & (m1 & Hm1 & Hl1) & _ & _ & Hin1). simpl.
    destruct (Hidx (current_index - delta)) as [b Hb].
    destruct (add_index_any offsets st1 _ b Hst1 Hb)
      as (st2 & -> & Hst2 & (m2 & Hm2 & Hl2) & _ & _ & Hin2). simpl.
    destruct (IH st2 Hst2) as (st3 & -> & Hst3 & (m3 & Hm3 & Hl3) & Hin3).
    exists st3. split; [done|]. split; [done|]. split.
    + exists (m1 ++ m2 ++ m3). rewrite Hm3, Hm2, Hm1, !length_app.
      split; [by rewrite <- !app_assoc|lia].
    + intros y Hy. destruct (Hin3 y Hy) as [Hy2|]; [|auto].
      destruct (Hin2 y Hy2) as [Hy1|]; auto.
Qed.

Lemma filter_ext_elem (P Q : Z → Prop)
    `{!∀ x, Decision (P x), !∀ x, Decision (Q x)} (l : list Z) :
  (∀ x, x ∈ l → P x ↔ Q x) → filter P l = filter Q l.
Proof.
  induction l as [|a l IH]; intros Hext; [done|].
  rewrite !filter_cons.
  rewrite IH by (intros x Hx; apply Hext; by right).
  destruct (decide (P a)) as [HP|HP], (decide (Q a)) as [HQ|HQ]; try done.
  - exfalso. apply HQ, (Hext a); [by left|done].
  - exfalso. apply HP, (Hext a); [by left|done].
Qed.

(** The last loop, on distinct offsets: it appends the offsets not yet
    placed, in their order. *)
Lemma add_rest_filter rest st :
  NoDup rest → placed_once st →
  (add_rest rest st).1 = st.1 ++ filter (λ x, x ∉ st.1) rest.
Proof.
  revert st. induction rest as [|offset rest IH]; intros st Hnd Hst; simpl.
  - by rewrite filter_nil, app_nil_r.
  - apply NoDup_cons in Hnd as [Hfresh Hnd].
    case_bool_decide as Hseen.
    + rewrite (IH st Hnd Hst). f_equal.
      rewrite filter_cons_False; [done|].
      intros Hno. apply Hno. by apply Hst.
    + rewrite (IH _ Hnd (placed_once_add st offset Hst Hseen)). simpl.
      rewrite <- app_assoc. f_equal.
      rewrite filter_cons_True by (intros ?; apply Hseen; by apply Hst).
      simpl. f_equal. apply filter_ext_elem.
      intros y Hy. rewrite elem_of_app, list_elem_of_singleton.
      split; [tauto|]. intros Hno [?|Heq]; [done|]. by subst.
Qed.

(** The plan for an index Python accepts. *)
Lemma plan_any (offsets : list Z) (current_index : Z) :
  - Z.of_nat (length offsets) ≤ current_index < Z.of_nat (length offsets) →
  ∃ first rest,
    offsets !! Z.to_nat (current_index `mod` Z.of_nat (length offsets))
      = Some first ∧
    plan offsets current_index = Ok (first :: rest) ∧
    NoDup (first :: rest) ∧
    ∀ y, y ∈ first :: rest ↔ y ∈ offsets.
Proof.
  intros Hci. unfold plan.
  assert (offsets ≠ []) as Hne.
  { intros Hnil. apply (f_equal length) in Hnil. simpl in Hnil. lia. }
  assert (placed_once ([], ∅)) as H0.
  { split; simpl; [apply NoDup_nil_2|]. intros x.
    by rewrite elem_of_empty, elem_of_nil. }
  destruct (py_index_in_range offsets current_index Hci) as (first & Hfirst & Hat).
  destruct (add_index_any offsets _ current_index first H0 Hfirst)
    as (st1 & -> & Hst1 & _ & _ & Hone & Hin1).
  specialize (Hone eq_refl).
  cbn -[range add_neighbours add_rest].
  destruct (add_neighbours_any offsets current_index
              (range 1 (NEIGHBOR_PREFETCH + 1)) st1 Hne Hst1)
    as (st2 & -> & Hst2 & (m2 & Hm2 & _) & Hin2).
  cbn -[add_rest].
  destruct (add_rest_spec offsets st2 Hst2) as [[Hnd3 _] Hin3].
  assert (∃ tail, (add_rest offsets st2).1 = st2.1 ++ tail) as [m3 Hm3].
  { clear. revert st2. induction offsets as [|o os IH]; intros st2; simpl.
    - exists []. by rewrite app_nil_r.
    - case_bool_decide; [apply IH|].
      destruct (IH (st2.1 ++ [o], {[o]} ∪ st2.2)) as [tail ->].
      simpl. exists (o :: tail). by rewrite <- app_assoc. }
  exists first, (m2 ++ m3). split; [done|].
  assert ((add_rest offsets st2).1 = first :: m2 ++ m3) as Horder.
  { rewrite Hm3, Hm2, Hone. by rewrite <- app_assoc. }
  rewrite <- Horder. split; [done|]. split; [done|].
  intros y. rewrite Hin3. split; [|auto].
  intros [Hy|?]; [|done].
  destruct (Hin2 y Hy) as [Hy1|?]; [|done].
  destruct (Hin1 y Hy1) as [Hy0|?]; [|done].
  simpl in Hy0. by apply elem_of_nil in Hy0.
Qed.

(** X14: for any non-empty list of offsets, distinct or not, and any
    index Python accepts (from minus the length up to the length), the
    plan starts with the offset at that index, places no offset twice and
    places exactly the offsets of the list. *)
Theorem plan_of_any_list (offsets : list Z) (current_index : Z) :
  - Z.of_nat (length offsets) ≤ current_index < Z.of_nat (length offsets) →
  ∃ first rest,
    offsets !! Z.to_nat (current_index `mod` Z.of_nat (length offsets))
      = Some first ∧
    plan offsets current_index = Ok (first :: rest) ∧
    NoDup (first :: rest) ∧
    ∀ y, y ∈ first :: rest ↔ y ∈ offsets.
Proof. apply plan_any. Qed.

(** X15: an index outside what Python accepts makes the plan raise
    IndexError; so does any index on the empty list. *)
Theorem plan_rejects_index_out_of_range (offsets : list Z) (current_index : Z) :
  current_index < - Z.of_nat (length offsets)
  ∨ Z.of_nat (length offsets) ≤ current_index →
  plan offsets current_index = Raise IndexError.
Proof.
  intros Hci. unfold plan, add_index.
  by rewrite (py_index_out_of_range offsets current_index Hci).
Qed.

(** [add_index] keeps the order as it is when the offset is placed
    already, and appends the offset otherwise. *)
Lemma add_index_keeps offsets st idx x :
  placed_once st → py_index offsets idx = Ok x →
  ∃ st', add_index offsets st idx = Ok st' ∧ placed_once st' ∧
         st'.1 = if bool_decide (x ∈ st.1) then st.1 else st.1 ++ [x].
Proof.
  intros Hst Hx. unfold add_index. rewrite Hx. simpl.
  case_bool_decide as Hseen.
  - exists st. split; [done|]. split; [done|].
    rewrite bool_decide_eq_true_2; [done|]. by apply Hst.
  - eexists. split; [reflexivity|]. split; [by apply placed_once_add|].
    simpl. rewrite bool_decide_eq_false_2; [done|].
    intros Hin. apply Hseen. by apply Hst.
Qed.

(** X16: on distinct offsets, for an index Python accepts, the plan is
    the offset at the index, the next one, the previous one, the second
    next and the second previous, each taken around the end of the list
    and each left out where it repeats an earlier one, followed by all the
    other offsets in the order of the list. *)
Theorem plan_keeps_the_order_of_the_rest (offsets : list Z) (current_index : Z) :
  NoDup offsets →
  - Z.of_nat (length offsets) ≤ current_index < Z.of_nat (length offsets) →
  ∃ a b c d e,
    offsets !! Z.to_nat (current_index `mod` Z.of_nat (length offsets))
      = Some a ∧
    offsets !! Z.to_nat ((current_index + 1) `mod` Z.of_nat (length offsets))
      = Some b ∧
    offsets !! Z.to_nat ((current_index - 1) `mod` Z.of_nat (length offsets))
      = Some c ∧
    offsets !! Z.to_nat ((current_index + 2) `mod` Z.of_nat (length offsets))
      = Some d ∧
    offsets !! Z.to_nat ((current_index - 2) `mod` Z.of_nat (length offsets))
      = Some e ∧
    plan offsets current_index
    = Ok (first_occurrences [a; b; c; d; e]
          ++ filter (λ x, x ∉ first_occurrences [a; b; c; d; e]) offsets).
Proof.
  intros Hnd Hci. unfold plan.
  set (n := Z.of_nat (length offsets)) in *.
  assert (0 < n) as Hpos by lia.
  assert (placed_once ([], ∅)) as H0.
  { split; simpl; [apply NoDup_nil_2|]. intros x.
    by rewrite elem_of_empty, elem_of_nil. }
  assert (∀ k, ∃ x, py_index offsets (k `mod` n) = Ok x ∧
                    offsets !! Z.to_nat (k `mod` n) = Some x) as Hidx.
  { intros k. pose proof (Z.mod_pos_bound k n Hpos) as Hk.
    destruct (py_index_in_range offsets (k `mod` n)) as (x & Hx & Hat);
      [fold n; lia|].
    fold n in Hat. rewrite Z.mod_mod in Hat by lia. by exists x. }
  destruct (py_index_in_range offsets current_index Hci) as (a & Ha & Hat).
  fold n in Hat.
  destruct (Hidx (current_index + 1)) as (b & Hb & Hbt).
  destruct (Hidx (current_index - 1)) as (c & Hc & Hct).
  destruct (Hidx (current_index + 2)) as (d & Hd & Hdt).
  destruct (Hidx (current_index - 2)) as (e & He & Het).
  exists a, b, c, d, e. do 5 (split; [done|]).
  destruct (add_index_keeps offsets _ _ a H0 Ha) as (st1 & -> & Hst1 & H1).
  change (range 1 (NEIGHBOR_PREFETCH + 1)) with [1; 2].
  cbn -[add_rest add_index Z.modulo n].
  unfold py_mod. destruct (n =? 0) eqn:Hz; [lia|].
  cbn -[add_rest add_index Z.modulo n].
  destruct (add_index_keeps offsets _ _ b Hst1 Hb) as (st2 & -> & Hst2 & H2).
  cbn -[add_rest add_index Z.modulo n].
  destruct (add_index_keeps offsets _ _ c Hst2 Hc) as (st3 & -> & Hst3 & H3).
  cbn -[add_rest add_index Z.modulo n].
  destruct (add_index_keeps offsets _ _ d Hst3 Hd) as (st4 & -> & Hst4 & H4).
  cbn -[add_rest add_index Z.modulo n].
  destruct (add_index_keeps offsets _ _ e Hst4 He) as (st5 & -> & Hst5 & H5).
  cbn -[add_rest add_index Z.modulo n].
  rewrite (add_rest_filter offsets st5 Hnd Hst5).
  assert (st5.1 = first_occurrences [a; b; c; d; e]) as ->; [|done].
  unfold first_occurrences. cbn [foldl].
  by rewrite H5, H4, H3, H2, H1.
Qed.

Lemma py_index_lookup (l : list Z) (j : Z) (x : Z) :
  0 ≤ j → l !! Z.to_nat j = Some x → py_index l j = Ok x.
Proof.
  intros Hj Hx. pose proof (lookup_lt_Some _ _ _ Hx) as Hlt.
  unfold py_index. destruct (j <? 0) eqn:Hneg; [lia|].
  destruct ((0 <=? j) && (j <? Z.of_nat (length l))) eqn:Hin; [|lia].
  by rewrite Hx.
Qed.

Lemma add_index_fresh offsets st idx x :
  py_index offsets idx = Ok x → x ∉ st.2 →
  add_index offsets st idx = Ok (st.1 ++ [x], {[x]} ∪ st.2).
Proof.
  intros Hx Hfresh. unfold add_index. rewrite Hx. simpl.
  by rewrite bool_decide_eq_false_2.
Qed.

Lemma add_rest_extends rest st :
  ∃ tail, (add_rest rest st).1 = st.1 ++ tail.
Proof.
  revert st. induction rest as [|o os IH]; intros st; simpl.
  - exists []. by rewrite app_nil_r.
  - case_bool_decide; [apply IH|].
    destruct (IH (st.1 ++ [o], {[o]} ∪ st.2)) as [tail ->].
    simpl. exists (o :: tail). by rewrite <- app_assoc.
Qed.

Lemma mod_ahead (i d n : Z) :
  0 ≤ i < n → 0 ≤ d ≤ n →
  (i + d) `mod` n = if i + d <? n then i + d else i + d - n.
Proof.
  intros Hi Hd. destruct (i + d <? n) eqn:Hlt.
  - apply Z.mod_small. lia.
  - symmetry. apply (Z.mod_unique_pos _ n 1); lia.
Qed.

Lemma mod_behind (i d n : Z) :
  0 ≤ i < n → 0 ≤ d ≤ n →
  (i - d) `mod` n = if 0 <=? i - d then i - d else i - d + n.
Proof.
  intros Hi Hd. destruct (0 <=? i - d) eqn:Hle.
  - apply Z.mod_small. lia.
  - symmetry. apply (Z.mod_unique_pos _ n (-1)); lia.
Qed.

Local Ltac fresh_in_seen :=
  cbn [snd]; rewrite ?not_elem_of_union, ?not_elem_of_singleton;
  repeat split; first [apply not_elem_of_empty | congruence].

(** X17: on at least five distinct offsets the plan begins with the
    current offset, then the next, the previous, the second next and the
    second previous one, each taken around the end of the list. *)
Theorem plan_front_is_the_neighbours
    (offsets : list Z) (current_index : Z) (a b c d e : Z) :
  NoDup offsets →
  5 ≤ Z.of_nat (length offsets) →
  0 ≤ current_index < Z.of_nat (length offsets) →
  offsets !! Z.to_nat current_index = Some a →
  offsets !! Z.to_nat ((current_index + 1) `mod` Z.of_nat (length offsets))
    = Some b →
  offsets !! Z.to_nat ((current_index - 1) `mod` Z.of_nat (length offsets))
    = Some c →
  offsets !! Z.to_nat ((current_index + 2) `mod` Z.of_nat (length offsets))
    = Some d →
  offsets !! Z.to_nat ((current_index - 2) `mod` Z.of_nat (length offsets))
    = Some e →
  ∃ rest, plan offsets current_index = Ok (a :: b :: c :: d :: e :: rest).
Proof.
  intros Hnd Hlen Hci Ha Hb Hc Hd He.
  set (n := Z.of_nat (length offsets)) in *.
  pose proof (mod_ahead current_index 1 n Hci ltac:(lia)) as H1.
  pose proof (mod_behind current_index 1 n Hci ltac:(lia)) as H2.
  pose proof (mod_ahead current_index 2 n Hci ltac:(lia)) as H3.
  pose proof (mod_behind current_index 2 n Hci ltac:(lia)) as H4.
  assert (∀ j k x y, offsets !! Z.to_nat j = Some x →
                     offsets !! Z.to_nat k = Some y →
                     0 ≤ j → 0 ≤ k → j ≠ k → x ≠ y) as Hdiff.
  { intros j k x y Hx Hy Hj Hk Hjk ->.
    pose proof (NoDup_lookup _ _ _ _ Hnd Hx Hy). lia. }
  assert (0 ≤ (current_index + 1) `mod` n ∧ 0 ≤ (current_index - 1) `mod` n ∧
          0 ≤ (current_index + 2) `mod` n ∧ 0 ≤ (current_index - 2) `mod` n)
    as (P1 & P2 & P3 & P4).
  { repeat split; apply Z.mod_pos_bound; lia. }
  assert (a ≠ b ∧ a ≠ c ∧ a ≠ d ∧ a ≠ e ∧ b ≠ c ∧ b ≠ d ∧ b ≠ e ∧
          c ≠ d ∧ c ≠ e ∧ d ≠ e) as (Hab & Hac & Had & Hae & Hbc & Hbd & Hbe
                                       & Hcd & Hce & Hde).
  { repeat split;
      (eapply Hdiff; [eassumption|eassumption|lia|lia|]);
      rewrite ?H1, ?H2, ?H3, ?H4; repeat case_match; lia. }
  unfold plan. fold n.
  rewrite (add_index_fresh offsets ([], ∅) current_index a)
    by first [apply py_index_lookup; [lia|done] | apply not_elem_of_empty].
  change (range 1 (NEIGHBOR_PREFETCH + 1)) with [1; 2].
  cbn -[add_rest add_index Z.modulo n].
  unfold py_mod. destruct (n =? 0) eqn:Hz; [lia|].
  cbn -[add_rest add_index Z.modulo n].
  rewrite (add_index_fresh offsets _ _ b)
    by first [apply py_index_lookup; [lia|done] | fresh_in_seen].
  cbn -[add_rest add_index Z.modulo n].
  rewrite (add_index_fresh offsets _ _ c)
    by first [apply py_index_lookup; [lia|done] | fresh_in_seen].
  cbn -[add_rest add_index Z.modulo n].
  rewrite (add_index_fresh offsets _ _ d)
    by first [apply py_index_lookup; [lia|done] | fresh_in_seen].
  cbn -[add_rest add_index Z.modulo n].
  rewrite (add_index_fresh offsets _ _ e)
    by first [apply py_index_lookup; [lia|done] | fresh_in_seen].
  cbn -[add_rest add_index Z.modulo n].
  edestruct (add_rest_extends offsets) as [tail ->].
  by exists tail.
Qed.

Lemma plan_of_any_list_witness :
  ∃ rest,
    plan [6; 12; 6; 18] (-1) = Ok (18 :: rest) ∧ NoDup (18 :: rest).
Proof.
  assert (- Z.of_nat (length [6; 12; 6; 18]) ≤ -1
          < Z.of_nat (length [6; 12; 6; 18])) as Hci by (simpl; lia).
  destruct (plan_of_any_list [6; 12; 6; 18] (-1) Hci)
    as (first & rest & Hfirst & Hplan & Hnd & _).
  injection Hfirst as <-. by exists rest.
Defined.

Lemma plan_front_is_the_neighbours_witness :
  ∃ rest, plan [6; 12; 18; 24; 30; 36] 0 = Ok (6 :: 12 :: 36 :: 18 :: 30 :: rest).
Proof.
  assert (NoDup [6; 12; 18; 24; 30; 36]) as Hnd.
  { apply (bool_decide_unpack _). vm_compute. exact I. }
  assert (5 ≤ Z.of_nat (length [6; 12; 18; 24; 30; 36])) as Hlen by (simpl; lia).
  assert (0 ≤ 0 < Z.of_nat (length [6; 12; 18; 24; 30; 36])) as Hci by (simpl; lia).
  exact (plan_front_is_the_neighbours [6; 12; 18; 24; 30; 36] 0 6 12 36 18 30
           Hnd Hlen Hci eq_refl eq_refl eq_refl eq_refl eq_refl).
Defined.

Lemma plan_rejects_index_out_of_range_witness : plan [] 0 = Raise IndexError.
Proof.
  assert (0 < - Z.of_nat (length ([] : list Z))
          ∨ Z.of_nat (length ([] : list Z)) ≤ 0) as Hci by (simpl; lia).
  exact (plan_rejects_index_out_of_range [] 0 Hci).
Defined.

Lemma plan_keeps_the_order_of_the_rest_witness :
  plan [6; 12; 18; 24; 30; 36; 42] 3 = Ok [24; 30; 18; 36; 12; 6; 42]
  ∧ plan [6; 12; 18] (-1) = Ok [18; 6; 12].
Proof.
  split.
  - assert (NoDup [6; 12; 18; 24; 30; 36; 42]) as Hnd.
    { apply (bool_decide_unpack _). vm_compute. exact I. }
    assert (- Z.of_nat (length [6; 12; 18; 24; 30; 36; 42]) ≤ 3
            < Z.of_nat (length [6; 12; 18; 24; 30; 36; 42])) as Hci
      by (simpl; lia).
    destruct (plan_keeps_the_order_of_the_rest [6; 12; 18; 24; 30; 36; 42] 3
                Hnd Hci)
      as (a & b & c & d & e & Ha & Hb & Hc & Hd & He & Hplan).
    injection Ha as <-. injection Hb as <-. injection Hc as <-.
    injection Hd as <-. injection He as <-.
    rewrite Hplan. reflexivity.
  - assert (NoDup [6; 12; 18]) as Hnd.
    { apply (bool_decide_unpack _). vm_compute. exact I. }
    assert (- Z.of_nat (length [6; 12; 18]) ≤ -1
            < Z.of_nat (length [6; 12; 18])) as Hci by (simpl; lia).
    destruct (plan_keeps_the_order_of_the_rest [6; 12; 18] (-1) Hnd Hci)
      as (a & b & c & d & e & Ha & Hb & Hc & Hd & He & Hplan).
    injection Ha as <-. injection Hb as <-. injection Hc as <-.
    injection Hd as <-. injection He as <-.
    rewrite Hplan. reflexivity.
Defined.

End PlannerExtras.

(** ** Starting a refresh *)

Module RefreshFacts.
Import Refresh.







(** The window [refresh_images] leaves when it goes on. *)
Lemma plan_not_empty offsets current_index order :
  MainWindow.plan offsets current_index = Ok order → order ≠ [].
Proof.
  intros Hplan ->.
  destruct (decide (- Z.of_nat (length offsets) ≤ current_index
                    < Z.of_nat (length offsets))) as [Hci|Hci].
  - destruct (PlannerExtras.plan_any offsets current_index Hci)
      as (first & rest & _ & Hplan' & _). congruence.
  - unfold MainWindow.plan, MainWindow.add_index in Hplan.
    rewrite PlannerExtras.py_index_out_of_range in Hplan by lia. done.
Qed.


(** X23: a call of [refresh_images] on a window that is not refreshing
    leaves the window marked as refreshing whether it returns or raises,
    with frames, cache and store as they were, and the next call does
    nothing and sends nothing. *)
Theorem refresh_marks_even_when_it_raises (self : Refresh.t) :
  MainWindow._refresh_in_progress (window self) = false →
  ∃ self' sent raised,
    refresh_images self = (self', sent, raised) ∧
    MainWindow._refresh_in_progress (window self') = true ∧
    MainWindow.frames (window self') = MainWindow.frames (window self) ∧
    MainWindow.cache (window self') = MainWindow.cache (window self) ∧
    MainWindow.metadata (window self') = MainWindow.metadata (window self) ∧
    refresh_images self' = (self', [], None).
Proof.
  intros Hidle. unfold refresh_images at 1. rewrite Hidle.
  cbn [MainWindow.metadata MainWindow.offsets MainWindow.current_index].
  destruct (if auto_base_check self then _ else _) as [shown|e0];
    [|eexists _, _, _; split; [reflexivity|]; cbn; done].
  destruct (collect_headers _ _ _) as [collected|e1] eqn:Hcollect.
  - unfold MainWindow._build_priority_offsets.
    cbn [MainWindow.offsets MainWindow.current_index].
    destruct (MainWindow.plan _ _) as [order|e2] eqn:Hplan.
    + pose proof (plan_not_empty _ _ _ Hplan) as Hne.
      unfold fetch_offsets. cbn [_total].
      destruct (Z.of_nat (length order) =? 0) eqn:Hz.
      { destruct order; [done|]. simpl in Hz. lia. }
      destruct (_start_more _) as [[fetcher' sent] raised].
      eexists _, _, _. split; [reflexivity|]. cbn. done.
    + eexists _, _, _. split; [reflexivity|]. cbn. done.
  - eexists _, _, _. split; [reflexivity|]. cbn. done.
Qed.


Lemma refresh_marks_even_when_it_raises_witness :
  let file := Json (JDict {[ "90" := JDict {[ "etag" := JNum 5 ]} ]}) in
  let self :=
    mk (MainWindow._set_current_index
          (MainWindow.__init__ Sample.no_image ∅ (Some file)) 14)
       fetcher_init true in
  ∃ self',
    refresh_images self = (self', [], Some AttributeError) ∧
    MainWindow._refresh_in_progress (window self') = true ∧
    refresh_images self' = (self', [], None).
Proof.
  intros file self.
  assert (MainWindow._refresh_in_progress (window self) = false) as Hidle
    by reflexivity.
  assert ((refresh_images self).1.2 = []) as Hsent.
  { vm_compute. reflexivity. }
  assert ((refresh_images self).2 = Some AttributeError) as Hraised.
  { vm_compute. reflexivity. }
  clearbody self. clear file.
  destruct (refresh_marks_even_when_it_raises self Hidle)
    as (self' & sent & raised & Hrun & Hmark & _ & _ & _ & Hagain).
  rewrite Hrun in Hsent, Hraised. cbn [fst snd] in Hsent, Hraised.
  subst sent raised. by exists self'.
Defined.

End RefreshFacts.

(** ** Moving between frames *)

Module PlayerFacts.
Import Player.

Lemma frame_count_set self index :
  frame_count (_set_current_index self index) = frame_count self.
Proof. reflexivity. Qed.

(** X19: as long as there are at least two frames, a key press, an
    automatic step and a move of the slider to a frame each leave the
    current index on a frame and the play direction at 1 or -1; the
    planner then returns an order. *)
Theorem navigation_stays_on_a_frame (self : t) (key : Key) (value : Z) :
  steady self →
  2 ≤ frame_count self →
  0 ≤ value < frame_count self →
  (∃ self', keyPressEvent self key = Ok self' ∧ steady self' ∧
            frame_count self' = frame_count self ∧
            ∃ order, MainWindow._build_priority_offsets (window self') = Ok order) ∧
  (∃ self', _next_frame_auto self = Ok self' ∧ steady self' ∧
            frame_count self' = frame_count self ∧
            ∃ order, MainWindow._build_priority_offsets (window self') = Ok order) ∧
  steady (_on_slider_changed self value) ∧
  frame_count (_on_slider_changed self value) = frame_count self.
Proof.
  intros [Hci Hdir] Hn Hvalue.
  assert (∀ self', steady self' → frame_count self' = frame_count self →
                   ∃ order,
                     MainWindow._build_priority_offsets (window self') = Ok order)
    as Hplan.
  { intros self' [Hci' _] Hn'. unfold MainWindow._build_priority_offsets.
    destruct (PlannerExtras.plan_any (MainWindow.offsets (window self'))
                (MainWindow.current_index (window self')))
      as (first & rest & _ & -> & _); [|by eexists].
    unfold current_index, frame_count in *. lia. }
  assert (∀ k, MainWindow.py_mod k (frame_count self)
               = Ok (k `mod` frame_count self)) as Hmod.
  { intros k. unfold MainWindow.py_mod.
    destruct (frame_count self =? 0) eqn:Hz; [lia|done]. }
  assert (∀ k, 0 ≤ k `mod` frame_count self < frame_count self) as Hbound.
  { intros k. apply Z.mod_pos_bound. lia. }
  assert (∀ p index,
            frame_count p = frame_count self →
            0 ≤ index < frame_count self →
            play_direction p = 1 ∨ play_direction p = -1 →
            steady (_set_current_index p index)) as Hset.
  { intros p index Hp Hindex Hd. split; [|done].
    unfold current_index, frame_count in *. cbn. lia. }
  split; [|split; [|split]].
  - destruct key; cbn -[Z.modulo];
      unfold _prev_frame, _next_frame_manual, _jump_hours;
      cbn -[Z.modulo];
      change (Z.of_nat (length (MainWindow.offsets (window self))))
        with (frame_count self);
      rewrite ?Hmod; cbn -[Z.modulo];
      (eexists; split; [reflexivity|]);
      (split; [|split; [reflexivity|]]).
    all: try (apply Hset; [reflexivity|auto; lia..]).
    all: try (apply Hplan; [|reflexivity]).
    all: try (apply Hset; [reflexivity|auto; lia..]).
    all: try (split; [done|by cbn]).
    all: try done.
  - unfold _next_frame_auto.
    destruct (String.eqb (loop_mode self) "Stop"
              && (current_index self =? frame_count self - 1)) eqn:Hstop.
    { assert (steady (_pause_playback self)) as Hs.
      { unfold _pause_playback. by destruct (play_button self). }
      assert (frame_count (_pause_playback self) = frame_count self) as Hf.
      { unfold _pause_playback. by destruct (play_button self). }
      eexists. split; [reflexivity|]. split; [done|]. split; [done|].
      by apply Hplan. }
    destruct (String.eqb (loop_mode self) "Ping-pong") eqn:Hping.
    + set (direction :=
             if (0 <? play_direction self)
                && (current_index self =? frame_count self - 1)
             then -1
             else if (play_direction self <? 0) && (current_index self =? 0)
             then 1 else play_direction self).
      assert ((direction = 1 ∨ direction = -1) ∧
              0 ≤ current_index self + direction < frame_count self)
        as [Hd Hin].
      { unfold direction.
        destruct ((0 <? play_direction self)
                  && (current_index self =? frame_count self - 1)) eqn:H1;
          [split; [auto|lia]|].
        destruct ((play_direction self <? 0) && (current_index self =? 0)) eqn:H2;
          [split; [auto|lia]|].
        split; [done|]. destruct Hdir as [Hd|Hd]; rewrite Hd in *; lia. }
      eexists. split; [reflexivity|].
      assert (steady
                (_set_current_index
                   (mk (window self) (loop_mode self) direction (play_button self))
                   (current_index
                      (mk (window self) (loop_mode self) direction
                         (play_button self)) + direction))) as Hs.
      { apply Hset; [reflexivity| |done]. exact Hin. }
      split; [exact Hs|]. split; [reflexivity|]. by apply Hplan.
    + change (Z.of_nat (length (MainWindow.offsets (window self))))
        with (frame_count self).
      rewrite Hmod. cbn -[Z.modulo].
      eexists. split; [reflexivity|].
      assert (steady (_set_current_index self
                        ((current_index self + 1) `mod` frame_count self))) as Hs.
      { by apply Hset. }
      split; [exact Hs|]. split; [reflexivity|]. by apply Hplan.
  - unfold _on_slider_changed. case_bool_decide; [|done].
    split; [|done]. unfold current_index, frame_count in *. cbn. lia.
  - unfold _on_slider_changed. by case_bool_decide.
Qed.

(** X20: with the current index on a frame, the right arrow followed by
    the left arrow, the left followed by the right, the up followed by the
    down and the down followed by the up each come back to the frame they
    started from. *)
Theorem arrow_keys_undo_each_other (self : t) :
  0 ≤ current_index self < frame_count self →
  ∀ there back,
    (there, back) ∈ [(Key_Right, Key_Left); (Key_Left, Key_Right);
                     (Key_Up, Key_Down); (Key_Down, Key_Up)] →
    ∃ self1 self2,
      keyPressEvent self there = Ok self1 ∧
      keyPressEvent self1 back = Ok self2 ∧
      current_index self2 = current_index self.
Proof.
  intros Hci there back Hkeys.
  assert (∀ p k, frame_count p = frame_count self →
                 MainWindow.py_mod k (frame_count p)
                 = Ok (k `mod` frame_count self)) as Hmod.
  { intros p k ->. unfold MainWindow.py_mod.
    destruct (frame_count self =? 0) eqn:Hz; [lia|done]. }
  assert (∀ a b, a + b = 0 →
                 ((current_index self + a) `mod` frame_count self + b)
                   `mod` frame_count self = current_index self) as Hback.
  { intros a b Hab. rewrite Zplus_mod_idemp_l.
    replace (current_index self + a + b) with (current_index self) by lia.
    by apply Z.mod_small. }
  repeat (apply elem_of_cons in Hkeys as [[= -> ->]|Hkeys]);
    [| | | |by apply elem_of_nil in Hkeys].
  all: cbn -[Z.modulo];
    unfold _prev_frame, _next_frame_manual, _jump_hours; cbn -[Z.modulo];
    change (Z.of_nat (length (MainWindow.offsets (window self))))
      with (frame_count self);
    rewrite ?(Hmod self) by done; cbn -[Z.modulo];
    eexists _, _; (split; [reflexivity|]);
    change (Z.of_nat (length (MainWindow.offsets (window self))))
      with (frame_count self);
    rewrite ?(Hmod self) by done; cbn -[Z.modulo];
    (split; [reflexivity|]); unfold current_index; cbn -[Z.modulo].
  - apply (Hback 1 (-1)). lia.
  - apply (Hback (-1) 1). lia.
  - apply (Hback 4 (-4)). lia.
  - apply (Hback (-4) 4). lia.
Qed.

(** X21: an automatic step from a frame, with at least two frames.  In
    Stop mode it moves one frame on and, on the last frame, stays there and
    unchecks the play button.  In Ping-pong mode it moves by one frame in
    the play direction it leaves, which it turns round at either end.  In
    any other mode it moves one frame on and from the last frame to the
    first. *)
Theorem automatic_step_by_mode (self : t) :
  steady self →
  2 ≤ frame_count self →
  ∃ self',
    _next_frame_auto self = Ok self' ∧
    (loop_mode self = "Stop"%string →
     current_index self' = Z.min (current_index self + 1) (frame_count self - 1) ∧
     (current_index self = frame_count self - 1 → play_button self' = false)) ∧
    (loop_mode self = "Ping-pong"%string →
     current_index self' = current_index self + play_direction self' ∧
     (play_direction self' = 1 ∨ play_direction self' = -1) ∧
     (current_index self = frame_count self - 1 → play_direction self' = -1) ∧
     (current_index self = 0 → play_direction self' = 1)) ∧
    (loop_mode self ≠ "Stop"%string → loop_mode self ≠ "Ping-pong"%string →
     current_index self'
     = (if bool_decide (current_index self = frame_count self - 1)
        then 0 else current_index self + 1)).
Proof.
  intros [Hci Hdir] Hn. unfold _next_frame_auto.
  assert (∀ k, MainWindow.py_mod k (frame_count self)
               = Ok (k `mod` frame_count self)) as Hmod.
  { intros k. unfold MainWindow.py_mod.
    destruct (frame_count self =? 0) eqn:Hz; [lia|done]. }
  assert ((current_index self + 1) `mod` frame_count self
          = if bool_decide (current_index self = frame_count self - 1)
            then 0 else current_index self + 1) as Hnext.
  { case_bool_decide as Hlast.
    - replace (current_index self + 1) with (frame_count self) by lia.
      apply Z_mod_same_full.
    - apply Z.mod_small. lia. }
  destruct (String.eqb_spec (loop_mode self) "Stop") as [Hstop|Hstop].
  - destruct (current_index self =? frame_count self - 1) eqn:Hlast; cbn.
    + eexists. split; [reflexivity|].
      split; [|split; [intros Hp; by rewrite Hstop in Hp|done]].
      intros _. unfold _pause_playback.
      destruct (play_button self) eqn:Hp; cbn; (split; [|done]);
        unfold current_index in *; cbn; lia.
    + rewrite Hstop. cbn -[Z.modulo].
      change (Z.of_nat (length (MainWindow.offsets (window self))))
        with (frame_count self).
      rewrite Hmod. cbn -[Z.modulo]. eexists. split; [reflexivity|].
      split; [|split; [done|done]].
      intros _. unfold current_index at 1. cbn -[Z.modulo]. rewrite Hnext.
      rewrite bool_decide_eq_false_2 by lia. split; lia.
  - cbn. destruct (String.eqb_spec (loop_mode self) "Ping-pong") as [Hping|Hping].
    + eexists. split; [reflexivity|]. split; [done|]. split; [|done].
      intros _. unfold current_index at 1. cbn.
      destruct ((0 <? play_direction self)
                && (current_index self =? frame_count self - 1)) eqn:H1.
      { repeat split; auto; lia. }
      destruct ((play_direction self <? 0) && (current_index self =? 0)) eqn:H2.
      { repeat split; auto; lia. }
      repeat split; auto; destruct Hdir; lia.
    + change (Z.of_nat (length (MainWindow.offsets (window self))))
        with (frame_count self).
      rewrite Hmod. cbn -[Z.modulo]. eexists. split; [reflexivity|].
      split; [done|]. split; [done|].
      intros _ _. unfold current_index at 1. cbn -[Z.modulo]. exact Hnext.
Qed.

Lemma navigation_stays_on_a_frame_witness :
  let player := mk Sample.window "Ping-pong" 1 true in
  ∃ self', _next_frame_auto player = Ok self' ∧ steady self'.
Proof.
  intros player.
  assert (steady player) as Hsteady.
  { split; [change (0 ≤ 14 < 40); lia|by left]. }
  assert (2 ≤ frame_count player) as Hn by (change (2 ≤ 40); lia).
  assert (0 ≤ 0 < frame_count player) as Hv by (change (0 ≤ 0 < 40); lia).
  destruct (navigation_stays_on_a_frame player Key_Right 0 Hsteady Hn Hv)
    as (_ & (self' & Hstep & Hs & _) & _).
  by exists self'.
Defined.

Lemma arrow_keys_undo_each_other_witness :
  let player := mk Sample.window "Loop" 1 false in
  ∃ self1 self2,
    keyPressEvent player Key_Up = Ok self1 ∧
    keyPressEvent self1 Key_Down = Ok self2 ∧
    current_index self2 = 14.
Proof.
  intros player.
  assert (0 ≤ current_index player < frame_count player) as Hci.
  { change (0 ≤ 14 < 40). lia. }
  assert ((Key_Up, Key_Down)
          ∈ [(Key_Right, Key_Left); (Key_Left, Key_Right);
             (Key_Up, Key_Down); (Key_Down, Key_Up)]) as Hkeys.
  { do 2 right. left. }
  exact (arrow_keys_undo_each_other player Hci Key_Up Key_Down Hkeys).
Defined.

Lemma automatic_step_by_mode_witness :
  let player :=
    mk (MainWindow._set_current_index Sample.window 39) "Stop" 1 true in
  ∃ self', _next_frame_auto player = Ok self' ∧
           current_index self' = 39 ∧ play_button self' = false.
Proof.
  intros player.
  assert (steady player) as Hsteady.
  { split; [change (0 ≤ 39 < 40); lia|by left]. }
  assert (2 ≤ frame_count player) as Hn by (change (2 ≤ 40); lia).
  destruct (automatic_step_by_mode player Hsteady Hn)
    as (self' & Hstep & Hstop & _).
  destruct (Hstop eq_refl) as [Hindex Hpause].
  exists self'. split; [exact Hstep|]. split; [exact Hindex|].
  by apply Hpause.
Defined.

End PlayerFacts.

(** ** Settings values *)

Module SettingsFacts.

Local Ltac codes H :=
  cbv zeta in H;
  repeat rewrite ?orb_true_iff, ?andb_true_iff, ?Nat.eqb_eq, ?Nat.leb_le in H.

(** The bytes of the characters of white space. *)
Lemma is_space_code c :
  is_space c = true → (Ascii.nat_of_ascii c ≤ 32)%nat.
Proof. unfold is_space. intros H. codes H. lia. Qed.

Lemma is_space2_code c1 c2 :
  is_space2 c1 c2 = true →
  (Ascii.nat_of_ascii c1 = 194 ∧ 128 ≤ Ascii.nat_of_ascii c2)%nat.
Proof. unfold is_space2. intros H. codes H. lia. Qed.

Lemma is_space3_code c1 c2 c3 :
  is_space3 c1 c2 c3 = true →
  (225 ≤ Ascii.nat_of_ascii c1 ∧ 128 ≤ Ascii.nat_of_ascii c2 ≤ 154
   ∧ 128 ≤ Ascii.nat_of_ascii c3)%nat.
Proof. unfold is_space3. intros H. codes H. lia. Qed.

Lemma not_is_space c : (32 < Ascii.nat_of_ascii c)%nat → is_space c = false.
Proof.
  intros Hc. destruct (is_space c) eqn:H; [|done].
  apply is_space_code in H. lia.
Qed.

Lemma not_is_space2 c1 c2 :
  (Ascii.nat_of_ascii c1 ≠ 194)%nat → is_space2 c1 c2 = false.
Proof.
  intros Hc. destruct (is_space2 c1 c2) eqn:H; [|done].
  apply is_space2_code in H. lia.
Qed.

Lemma not_is_space3 c1 c2 c3 :
  (Ascii.nat_of_ascii c1 < 225)%nat → is_space3 c1 c2 c3 = false.
Proof.
  intros Hc. destruct (is_space3 c1 c2 c3) eqn:H; [|done].
  apply is_space3_code in H. lia.
Qed.

Lemma string_app_cons c (s t : string) : String c s +:+ t = String c (s +:+ t).
Proof. reflexivity. Qed.

Lemma string_app_empty (t : string) : EmptyString +:+ t = t.
Proof. reflexivity. Qed.

Lemma string_app_assoc (s t u : string) : (s +:+ t) +:+ u = s +:+ (t +:+ u).
Proof. induction s as [|c s IH]; [done|]. by rewrite !string_app_cons, IH. Qed.

Lemma string_app_empty_r (s : string) : s +:+ EmptyString = s.
Proof. induction s as [|c s IH]; [done|]. by rewrite string_app_cons, IH. Qed.

(** [lstrip] passes over a character of white space, of any width. *)
Lemma lstrip_space w t : isspace w = true → lstrip (w +:+ t) = lstrip t.
Proof.
  destruct w as [|c1 [|c2 [|c3 [|c4 w]]]]; try discriminate;
    cbn [isspace]; intros H; rewrite ?string_app_cons, string_app_empty.
  - cbn [lstrip]. by rewrite H.
  - pose proof (is_space2_code _ _ H) as [H1 H2].
    cbn [lstrip]. rewrite not_is_space by lia. by rewrite H.
  - pose proof (is_space3_code _ _ _ H) as (H1 & H2 & H3).
    cbn [lstrip]. rewrite not_is_space by lia.
    rewrite not_is_space2 by lia. by rewrite H.
Qed.

Lemma lstrip_spaces ws t :
  Forall (λ w, isspace w = true) ws → lstrip (join ws +:+ t) = lstrip t.
Proof.
  induction 1 as [|w ws Hw _ IH]; [done|].
  unfold join in *. cbn [foldr]. by rewrite string_app_assoc, lstrip_space.
Qed.

(** [rstrip] drops a character of white space at the end. *)
Lemma rstrip_space w : isspace w = true → rstrip w = EmptyString.
Proof.
  destruct w as [|c1 [|c2 [|c3 [|c4 w]]]]; try discriminate;
    cbn [isspace]; intros H.
  - cbn [rstrip isspace]. by rewrite H.
  - pose proof (is_space2_code _ _ H) as [H1 H2].
    cbn [rstrip isspace]. rewrite (not_is_space c2) by lia.
    cbn [isspace]. by rewrite H.
  - pose proof (is_space3_code _ _ _ H) as (H1 & H2 & H3).
    cbn [rstrip isspace]. rewrite (not_is_space c3) by lia.
    cbn [isspace]. rewrite (not_is_space2 c2 c3) by lia.
    cbn [isspace]. by rewrite H.
Qed.

Lemma rstrip_app s t :
  rstrip t = EmptyString → rstrip (s +:+ t) = rstrip s.
Proof.
  intros Ht. induction s as [|c s IH]; [done|].
  rewrite string_app_cons. cbn [rstrip]. by rewrite IH.
Qed.

Lemma rstrip_spaces ws :
  Forall (λ w, isspace w = true) ws → rstrip (join ws) = EmptyString.
Proof.
  induction 1 as [|w ws Hw _ IH]; [done|].
  unfold join in *. cbn [foldr]. rewrite rstrip_app by done.
  by apply rstrip_space.
Qed.

(** On a byte of ASCII the two functions look at that byte only. *)
Lemma lstrip_ascii c rest :
  (Ascii.nat_of_ascii c < 128)%nat →
  lstrip (String c rest) = if is_space c then lstrip rest else String c rest.
Proof.
  intros Hc. cbn [lstrip]. destruct (is_space c); [done|].
  destruct rest as [|c2 [|c3 rest]]; [done|..];
    rewrite not_is_space2 by lia; [done|].
  by rewrite not_is_space3 by lia.
Qed.

Lemma isspace_ascii c rest :
  (Ascii.nat_of_ascii c < 128)%nat →
  isspace (String c rest) = is_space c && String.eqb rest EmptyString.
Proof.
  intros Hc. destruct rest as [|c2 [|c3 [|c4 rest]]]; cbn [isspace String.eqb].
  - by rewrite andb_true_r.
  - rewrite not_is_space2 by lia. by rewrite andb_false_r.
  - rewrite not_is_space3 by lia. by rewrite andb_false_r.
  - by rewrite andb_false_r.
Qed.

Lemma isascii_cons c s :
  isascii (String c s) = true →
  (Ascii.nat_of_ascii c < 128)%nat ∧ isascii s = true.
Proof.
  cbn [isascii]. intros [Hc Hs]%andb_prop. split; [|done].
  by apply Nat.ltb_lt.
Qed.

Lemma lstrip_app s t :
  isascii s = true →
  lstrip (s +:+ t)
  = if String.eqb (lstrip s) EmptyString then lstrip t else lstrip s +:+ t.
Proof.
  induction s as [|c s IH]; intros Hs; [done|].
  apply isascii_cons in Hs as [Hc Hs].
  rewrite string_app_cons, !lstrip_ascii by done.
  destruct (is_space c); [by apply IH|done].
Qed.

Lemma isascii_lstrip s : isascii s = true → isascii (lstrip s) = true.
Proof.
  induction s as [|c s IH]; intros Hs; [done|].
  pose proof (isascii_cons _ _ Hs) as [Hc Hs'].
  rewrite lstrip_ascii by done. destruct (is_space c); auto.
Qed.

Lemma is_space_lower c : is_space (lower_char c) = is_space c.
Proof. by destruct c as [[] [] [] [] [] [] [] []]. Qed.

Lemma lower_char_ascii c :
  (Ascii.nat_of_ascii (lower_char c) <? 128)%nat
  = (Ascii.nat_of_ascii c <? 128)%nat.
Proof. by destruct c as [[] [] [] [] [] [] [] []]. Qed.

Lemma lower_char_twice c : lower_char (lower_char c) = lower_char c.
Proof. by destruct c as [[] [] [] [] [] [] [] []]. Qed.

Lemma lower_twice s : lower (lower s) = lower s.
Proof. induction s as [|c s IH]; simpl; [done|]. by rewrite lower_char_twice, IH. Qed.

Lemma lower_empty s : String.eqb (lower s) EmptyString = String.eqb s EmptyString.
Proof. by destruct s. Qed.

Lemma lstrip_lower s :
  isascii s = true → lstrip (lower s) = lower (lstrip s).
Proof.
  induction s as [|c s IH]; intros Hs; [done|].
  apply isascii_cons in Hs as [Hc Hs]. cbn [lower].
  rewrite !lstrip_ascii, is_space_lower; [|done|].
  - destruct (is_space c); [by apply IH|done].
  - apply Nat.ltb_lt. rewrite lower_char_ascii. by apply Nat.ltb_lt.
Qed.

Lemma rstrip_lower s :
  isascii s = true → rstrip (lower s) = lower (rstrip s).
Proof.
  induction s as [|c s IH]; intros Hs; [done|].
  apply isascii_cons in Hs as [Hc Hs]. cbn [lower rstrip].
  rewrite !isspace_ascii, is_space_lower, (IH Hs), lower_empty; [|done|].
  - by destruct (is_space c && String.eqb (rstrip s) EmptyString).
  - apply Nat.ltb_lt. rewrite lower_char_ascii. by apply Nat.ltb_lt.
Qed.

(** [strip] on an ASCII text between white space of any kind. *)
Lemma strip_between before s after :
  isascii s = true →
  Forall (λ w, isspace w = true) before →
  Forall (λ w, isspace w = true) after →
  strip (join before +:+ s +:+ join after) = strip s.
Proof.
  intros Hs Hb Ha. unfold strip.
  rewrite lstrip_spaces, lstrip_app by done.
  destruct (String.eqb_spec (lstrip s) EmptyString) as [Hall|Hsome].
  - rewrite Hall. replace (join after) with (join after +:+ EmptyString)
      by apply string_app_empty_r.
    by rewrite lstrip_spaces.
  - apply rstrip_app. by apply rstrip_spaces.
Qed.

(** X22: [bool_value] reads a string of ASCII text without regard to the
    white space around it, to the case of its letters and to the default.
    The white space is any sequence of the characters [str.strip] removes,
    the no-break space and the other ones outside ASCII among them. *)
Theorem bool_value_of_a_string
    (s : string) (before after : list string) (default default' : bool) :
  isascii s = true →
  Forall (λ w, isspace w = true) before →
  Forall (λ w, isspace w = true) after →
  bool_value (JStr (join before +:+ s +:+ join after)) default
  = bool_value (JStr (lower s)) default'.
Proof.
  intros Hs Hb Ha. unfold bool_value.
  rewrite strip_between by done. unfold strip.
  rewrite lstrip_lower, rstrip_lower, lower_twice;
    [done|by apply isascii_lstrip|done].
Qed.

Lemma bool_value_of_a_string_witness :
  let nbsp :=
    String (Ascii.ascii_of_nat 194) (String (Ascii.ascii_of_nat 160) EmptyString) in
  let line := String (Ascii.ascii_of_nat 10) EmptyString in
  bool_value (JStr (nbsp +:+ "Yes" +:+ " " +:+ line)) false = true.
Proof.
  intros nbsp line.
  assert (isascii "Yes" = true) as Hs by reflexivity.
  assert (Forall (λ w, isspace w = true) [nbsp]) as Hb.
  { by repeat constructor. }
  assert (Forall (λ w, isspace w = true) [" "%string; line]) as Ha.
  { by repeat constructor. }
  exact (bool_value_of_a_string "Yes" [nbsp] [" "%string; line] false true
           Hs Hb Ha).
Defined.

End SettingsFacts.
